(** * story_processor.py: chunk, index, retrieve, aggregate

    A shallow embedding of [src/story_processor.py] and of the library
    calls it depends on.

    - Python [str] values are lists of characters ([str := list ascii]):
      a character is a code point below 256, and on these [lower] and
      [isspace] are those of Python (the letters A-Z and the Latin-1 capitals
      fold, the ASCII whitespace, U+0085 and U+00A0 are stripped).  Text
      with code points from 256 on is outside the model.
    - Python exceptions are the constructors of [exn]; a call either
      returns a value or raises ([outcome]).
    - [self.index], [self.texts] and [self.metadatas] are the fields of the
      record [StoryProcessor]; methods that assign to them return the new
      processor next to their outcome.
    - The sentence-embedding model is a parameter ([encode]); the flat L2
      index of the faiss library and the recursive character splitter of
      langchain are modelled in the modules [Faiss] and [Splitter] after the
      behaviour of those libraries. *)

From Stdlib Require Import List Ascii String ZArith QArith Lia Bool Arith.
Import ListNotations.

Open Scope string_scope.
Open Scope nat_scope.
Open Scope list_scope.

(* ================================================================= *)
(** ** Python values: strings, lists, exceptions *)

Definition str := list ascii.

#[warnings="-uniform-inheritance"]
Coercion list_ascii_of_string : string >-> list.

Inductive exn : Type :=
| ValueError      (* "No index found. Please process stories first." *)
| AttributeError  (* 'NoneType' object has no attribute 'search' *)
| AssertionError  (* faiss: query dimension differs from the index's, or k is not positive *)
| IndexError      (* list index out of range; tuple index out of range *)
| OSError         (* open(source) failed *)
| RuntimeError    (* faiss.read_index could not parse the file *)
| UnpicklingError (* pickle.load could not parse the file *).

Inductive outcome (A : Type) : Type :=
| Return (a : A)
| Raise (e : exn).
Arguments Return {A} a.
Arguments Raise {A} e.

Definition bind {A B} (m : outcome A) (f : A -> outcome B) : outcome B :=
  match m with
  | Return a => f a
  | Raise e => Raise e
  end.

Notation "x <- m ;; k" := (bind m (fun x => k))
  (at level 61, m at next level, right associativity).

Module Py.

Definition str_eqb (a b : str) : bool :=
  if list_eq_dec ascii_dec a b then true else false.

(** [c.lower()] on one character below 256: A-Z and the Latin-1 capitals
    U+00C0-U+00DE, the multiplication sign U+00D7 apart, move up by 32. *)
Definition lower_char (c : ascii) : ascii :=
  let n := nat_of_ascii c in
  if ((65 <=? n) && (n <=? 90))
     || ((192 <=? n) && (n <=? 222) && negb (n =? 215))
  then ascii_of_nat (n + 32) else c.

(** [s.lower()] *)
Definition lower (s : str) : str := map lower_char s.

(** [s.startswith(p)] *)
Fixpoint startswith (p s : str) : bool :=
  match p, s with
  | [], _ => true
  | _ :: _, [] => false
  | a :: p', b :: s' => Ascii.eqb a b && startswith p' s'
  end.

(** [needle in hay] *)
Fixpoint contains (needle hay : str) : bool :=
  startswith needle hay ||
  match hay with
  | [] => false
  | _ :: t => contains needle t
  end.

(** [c.isspace()] on one character below 256: tab, newline, vertical tab,
    form feed, carriage return, the four separators 0x1c-0x1f, space, the
    next-line control U+0085 and the no-break space U+00A0. *)
Definition isspace (c : ascii) : bool :=
  let n := nat_of_ascii c in
  ((9 <=? n) && (n <=? 13)) || ((28 <=? n) && (n <=? 31)) || (n =? 32)
  || (n =? 133) || (n =? 160).

Fixpoint lstrip (s : str) : str :=
  match s with
  | [] => []
  | c :: t => if isspace c then lstrip t else s
  end.

Definition rstrip (s : str) : str := rev (lstrip (rev s)).

(** [s.strip()] *)
Definition strip (s : str) : str := rstrip (lstrip s).

(** [sep.join(parts)] *)
Fixpoint join (sep : str) (parts : list str) : str :=
  match parts with
  | [] => []
  | [p] => p
  | p :: rest => p ++ sep ++ join sep rest
  end.

(** [s.split(sep)] for a non-empty [sep]: left to right, occurrences of
    [sep] do not overlap; [skip] counts the characters of a matched
    separator that are still to be passed over. *)
Fixpoint split_from (sep : str) (skip : nat) (s : str) : list str :=
  match s with
  | [] => [[]]
  | c :: t =>
      match skip with
      | S n => split_from sep n t
      | O =>
          if startswith sep s then [] :: split_from sep (List.length sep - 1) t
          else match split_from sep 0 t with
               | p :: ps => (c :: p) :: ps
               | [] => [[c]]
               end
      end
  end.

Definition split (sep s : str) : list str := split_from sep 0 s.

(** [s.replace(old, new)] for a non-empty [old]. *)
Fixpoint replace_from (old new : str) (skip : nat) (s : str) : str :=
  match s with
  | [] => []
  | c :: t =>
      match skip with
      | S n => replace_from old new n t
      | O =>
          if startswith old s then new ++ replace_from old new (List.length old - 1) t
          else c :: replace_from old new 0 t
      end
  end.

Definition replace (old new s : str) : str := replace_from old new 0 s.

(** [l[i]] for a Python list and a (possibly negative) integer index. *)
Definition getitem {A} (l : list A) (i : Z) : outcome A :=
  let n := Z.of_nat (List.length l) in
  let j := if (i <? 0)%Z then (n + i)%Z else i in
  if (j <? 0)%Z then Raise IndexError
  else match nth_error l (Z.to_nat j) with
       | Some a => Return a
       | None => Raise IndexError
       end.

(** [[f(x) for x in xs]] where [f] may raise. *)
Fixpoint comprehension {A B} (f : A -> outcome B) (xs : list A) : outcome (list B) :=
  match xs with
  | [] => Return []
  | x :: rest =>
      y <- f x ;;
      ys <- comprehension f rest ;;
      Return (y :: ys)
  end.

(** A Python [set] of strings in the order its elements were added;
    [add] of a present element changes nothing. *)
Fixpoint mem (x : str) (s : list str) : bool :=
  match s with
  | [] => false
  | y :: t => str_eqb x y || mem x t
  end.

Definition set_add (x : str) (s : list str) : list str :=
  if mem x s then s else s ++ [x].

End Py.

(* ================================================================= *)
(** ** The flat L2 index of the faiss library

    [faiss.IndexFlatL2] stores the added vectors in insertion order and
    answers a query by exhaustive comparison.  As the library documents,
    [search] hands back exactly [k] labels and [k] distances per query:
    when the index holds fewer than [k] vectors the missing labels are [-1]
    and the missing distances the largest float.  Components are rationals
    here and distances exact, where the library computes in 32-bit floats:
    the properties below are about the labels [search] hands back, their
    number and their range, and none depends on the value of a distance or
    on the order the distances give; only the scenarios evaluate [search],
    on small integers, where the two computations agree. *)

Module Faiss.

Record IndexFlatL2 : Type := {
  d : nat;              (* dimension *)
  xb : list (list Q)    (* stored vectors, by id *)
}.

Definition ntotal (idx : IndexFlatL2) : nat := List.length (xb idx).

(** [faiss.IndexFlatL2(dimension)] *)
Definition new (dimension : nat) : IndexFlatL2 := {| d := dimension; xb := [] |}.

(** [index.add(vectors)] *)
Definition add (idx : IndexFlatL2) (vectors : list (list Q)) : IndexFlatL2 :=
  {| d := d idx; xb := xb idx ++ vectors |}.

(** Squared Euclidean distance. *)
Definition fvec_L2sqr (x y : list Q) : Q :=
  fold_right (fun ab acc => ((fst ab - snd ab) * (fst ab - snd ab) + acc)%Q) 0%Q
             (combine x y).

Definition FLT_MAX : Q := 340282346638528859811704183484516925440 # 1.

Fixpoint enumerate_from {A} (i : Z) (l : list A) : list (Z * A) :=
  match l with
  | [] => []
  | a :: t => (i, a) :: enumerate_from (i + 1)%Z t
  end.

(** Insertion into a list sorted by distance; among equal distances the
    smaller id stays in front. *)
Fixpoint insert (e : Q * Z) (l : list (Q * Z)) : list (Q * Z) :=
  match l with
  | [] => [e]
  | h :: t => if Qle_bool (fst e) (fst h) then e :: h :: t else h :: insert e t
  end.

Fixpoint sort (l : list (Q * Z)) : list (Q * Z) :=
  match l with
  | [] => []
  | h :: t => insert h (sort t)
  end.

Definition neighbours (idx : IndexFlatL2) (x : list Q) : list (Q * Z) :=
  sort (map (fun iv => (fvec_L2sqr x (snd iv), fst iv)) (enumerate_from 0%Z (xb idx))).

(** [D, I = index.search(x, k)] for one query row [x]: the Python wrapper
    asserts that the query has the index's dimension and that [k] is
    positive. *)
Definition search (idx : IndexFlatL2) (x : list Q) (k : nat) : outcome (list Q * list Z) :=
  if negb (List.length x =? d idx) then Raise AssertionError
  else if k =? 0 then Raise AssertionError
  else
    let best := firstn k (neighbours idx x) in
    let missing := k - List.length best in
    Return (map fst best ++ repeat FLT_MAX missing,
            map snd best ++ repeat (-1)%Z missing).

End Faiss.

(* ================================================================= *)
(** ** The recursive character splitter of langchain

    [RecursiveCharacterTextSplitter(chunk_size, chunk_overlap,
    length_function=len)] with the library's defaults: the separators
    (a blank line, a newline, a space, and last the empty separator that
    cuts between any two characters), [keep_separator=True] (a separator stays at the
    head of the piece that follows it) and [strip_whitespace=True] (a merged
    chunk is stripped, and dropped when nothing is left). *)

Module Splitter.

Definition LF : ascii := ascii_of_nat 10.

Definition separators : list str := [[LF; LF]; [LF]; " " : str; [] : str].

(** [_split_text_with_regex(text, separator, keep_separator=True)] for a
    literal separator. *)
Definition _split_text_with_regex (text separator : str) : list str :=
  let splits :=
    match separator with
    | [] => map (fun c => [c]) text
    | _ :: _ =>
        match Py.split separator text with
        | [] => []
        | first :: others => first :: map (fun piece => separator ++ piece) others
        end
    end in
  filter (fun s => negb (Py.str_eqb s [])) splits.

(** [_join_docs(docs, separator)]: [None] when only whitespace is left. *)
Definition _join_docs (docs : list str) (separator : str) : option str :=
  match Py.strip (Py.join separator docs) with
  | [] => None
  | text => Some text
  end.

Definition append_doc (doc : option str) (docs : list str) : list str :=
  match doc with
  | Some text => text :: docs
  | None => docs
  end.

Section Merge.

Variables chunk_size chunk_overlap : nat.
Variable separator : str.

Let separator_len := List.length separator.

(** The inner [while] of [_merge_splits]: pieces leave [current_doc] from
    the front until the kept overlap is small enough and the next piece
    fits.  [total] is the length of [current_doc] joined, so it is [0] when
    [current_doc] is empty and the loop stops there. *)
Fixpoint pop_front (_len : nat) (current_doc : list str) (total : nat) : list str * nat :=
  if (chunk_overlap <? total)
     || ((chunk_size <? total + _len + (if 0 <? List.length current_doc then separator_len else 0))
         && (0 <? total))
  then
    match current_doc with
    | [] => ([], total)
    | first :: others =>
        pop_front _len others
          (total - (List.length first + (if 1 <? List.length current_doc then separator_len else 0)))
    end
  else (current_doc, total).

(** The [for d in splits] loop of [_merge_splits], with the documents it
    appends in order. *)
Fixpoint merge_loop (splits current_doc : list str) (total : nat) : list str :=
  match splits with
  | [] => append_doc (_join_docs current_doc separator) []
  | d :: rest =>
      let _len := List.length d in
      let grow (cur : list str) (tot : nat) :=
        let cur' := cur ++ [d] in
        merge_loop rest cur' (tot + (_len + (if 1 <? List.length cur' then separator_len else 0))) in
      if (chunk_size <? total + _len + (if 0 <? List.length current_doc then separator_len else 0))
         && (0 <? List.length current_doc)
      then
        let doc := _join_docs current_doc separator in
        let popped := pop_front _len current_doc total in
        append_doc doc (grow (fst popped) (snd popped))
      else grow current_doc total
  end.

Definition _merge_splits (splits : list str) : list str := merge_loop splits [] 0.

End Merge.

Section SplitText.

Variables chunk_size chunk_overlap : nat.

Definition flush (_good_splits : list str) : list str :=
  match _good_splits with
  | [] => []
  | _ :: _ => _merge_splits chunk_size chunk_overlap [] _good_splits
  end.

(** The [for s in splits] loop of [_split_text]; [deeper] is the recursive
    call on the remaining separators, [None] when there are none left. *)
Fixpoint each_split (deeper : option (str -> list str))
    (splits _good_splits : list str) : list str :=
  match splits with
  | [] => flush _good_splits
  | s :: rest =>
      if List.length s <? chunk_size then each_split deeper rest (_good_splits ++ [s])
      else
        flush _good_splits
        ++ match deeper with
           | None => [s]
           | Some split_further => split_further s
           end
        ++ each_split deeper rest []
  end.

Definition split_on (separator : str) (deeper : option (str -> list str)) (text : str) : list str :=
  each_split deeper (_split_text_with_regex text separator) [].

(** [_split_text(text, separators)].  The search for the first separator
    that is empty or occurs in the text and the recursion on the separators
    after it walk the same list; [last] is [separators[-1]], used when the
    search finds nothing. *)
Fixpoint _split_text (last : str) (seps : list str) (text : str) {struct seps} : list str :=
  match seps with
  | [] => split_on last None text
  | s :: new_separators =>
      if Py.str_eqb s [] then split_on s None text
      else if Py.contains s text then
        split_on s
          match new_separators with
          | [] => None
          | _ :: _ => Some (_split_text last new_separators)
          end
          text
      else _split_text last new_separators text
  end.

(** [splitter.split_text(text)] *)
Definition split_text (text : str) : list str :=
  _split_text (List.last separators []) separators text.

End SplitText.

End Splitter.

(* ================================================================= *)
(** ** story_processor.py *)

(** [langchain.schema.Document], with [metadata["source"]] as a field. *)
Record Document : Type := {
  page_content : str;
  source : str
}.

(** One entry of [CharacterInfo.relations]: a dict with the keys ["name"]
    and ["relation"]. *)
Record Relation : Type := {
  rel_name : str;
  rel_relation : str
}.

Record CharacterInfo : Type := {
  name : str;
  storyTitle : str;
  summary : str;
  relations : list Relation;
  characterType : str
}.

(** The instance state of [StoryProcessor]; a metadata entry
    [{"source": s}] is kept as [s]. *)
Record StoryProcessor : Type := {
  index : option Faiss.IndexFlatL2;
  texts : list str;
  metadatas : list str
}.

(** A file that is missing, present but unparseable, or holds a value. *)
Inductive file (A : Type) : Type :=
| Missing
| Corrupt
| Stored (a : A).
Arguments Missing {A}.
Arguments Corrupt {A}.
Arguments Stored {A} a.

(** What the processor sees of the file system: the file at [index_path],
    the pickle at [store_path] (a dict with the keys ["texts"] and
    ["metadatas"]), and the story files by path.  Writing an index or a
    pickle and reading it back gives the value written. *)
Record Disk : Type := {
  index_file : file Faiss.IndexFlatL2;
  store_file : file (list str * list str);
  source_files : str -> option str
}.

Definition exists_ {A} (f : file A) : bool :=
  match f with
  | Missing => false
  | _ => true
  end.

(** The dict [relevant_chunks], one joined text per aspect. *)
Record RelevantChunks : Type := {
  rc_story_title : str;
  rc_summary : str;
  rc_relations : str;
  rc_character_type : str
}.

(** [StoryProcessor.__init__]: the splitter is configured with
    [chunk_size=1000] and [chunk_overlap=200]. *)
Definition chunk_size : nat := 1000.
Definition chunk_overlap : nat := 200.

Definition text_splitter_split_text : str -> list str :=
  Splitter.split_text chunk_size chunk_overlap.

Definition init : StoryProcessor :=
  {| index := None; texts := []; metadatas := [] |}.

(** Lines 111-118: the relations found in the [relations] aspect text. *)
Definition relation_sentences (character_name relations_text : str) : list Relation :=
  match relations_text with
  | [] => []
  | _ :: _ =>
      map (fun sentence => {| rel_name := "Unknown"; rel_relation := Py.strip sentence |})
          (filter (fun sentence => Py.contains character_name sentence)
                  (Py.split "." relations_text))
  end.

(** Lines 120-127: the character type from the [character_type] aspect
    text. *)
Definition character_type_of (character_type_text : str) : str :=
  let type_text := Py.lower character_type_text in
  if Py.contains "protagonist" type_text then "Protagonist"
  else if Py.contains "antagonist" type_text then "Antagonist"
  else if Py.contains "main" type_text then "Main Character"
  else "Supporting Character".


Section Processor.

(** [self.model.encode] on one text: the embedding model. *)
Variable encode : str -> list Q.

(** [next(iter(s))] on a set of strings: which element comes first depends
    on the hashes of the strings; it is one of the set's elements. *)
Variable next_iter : list str -> str.

(** Lines 46-50 of [process_stories]. *)
Fixpoint extend_stories (stories : list Document) (ts ms : list str) : list str * list str :=
  match stories with
  | [] => (ts, ms)
  | story :: rest =>
      let chunks := text_splitter_split_text (page_content story) in
      extend_stories rest (ts ++ chunks) (ms ++ map (fun _ => source story) chunks)
  end.

(** [process_stories]: [embeddings.shape[1]] raises on the empty array that
    [encode] gives for no texts. *)
Definition process_stories (dk : Disk) (p : StoryProcessor) (stories : list Document)
  : outcome unit * StoryProcessor * Disk :=
  let tm := extend_stories stories (texts p) (metadatas p) in
  let embeddings := map encode (fst tm) in
  match embeddings with
  | [] => (Raise IndexError, {| index := index p; texts := fst tm; metadatas := snd tm |}, dk)
  | row :: _ =>
      let dimension := List.length row in
      let idx := Faiss.add (Faiss.new dimension) embeddings in
      (Return tt,
       {| index := Some idx; texts := fst tm; metadatas := snd tm |},
       {| index_file := Stored idx;
          store_file := Stored (fst tm, snd tm);
          source_files := source_files dk |})
  end.

(** [find_relevant_chunks(query, k)] *)
Definition find_relevant_chunks (p : StoryProcessor) (query : str) (k : nat) : outcome (list str) :=
  let query_vector := encode query in
  match index p with
  | None => Raise AttributeError
  | Some idx =>
      DI <- Faiss.search idx query_vector k ;;
      Py.comprehension (Py.getitem (texts p)) (snd DI)
  end.

(** Lines 76-85 of [get_character_info]: the lazy load. *)
Definition load_existing (dk : Disk) (p : StoryProcessor) : outcome unit * StoryProcessor :=
  match index p with
  | Some _ => (Return tt, p)
  | None =>
      if negb (exists_ (index_file dk)) || negb (exists_ (store_file dk))
      then (Raise ValueError, p)
      else
        match index_file dk with
        | Stored idx =>
            let p1 := {| index := Some idx; texts := texts p; metadatas := metadatas p |} in
            match store_file dk with
            | Stored data =>
                (Return tt, {| index := Some idx; texts := fst data; metadatas := snd data |})
            | _ => (Raise UnpicklingError, p1)
            end
        | _ => (Raise RuntimeError, p)
        end
  end.

(** Lines 87-97: the four aspect queries, in the order of the dict. *)
Definition aspect (p : StoryProcessor) (query : str) : outcome str :=
  chunks <- find_relevant_chunks p query 5 ;;
  Return (Py.join " " chunks).

Definition relevant_chunks (p : StoryProcessor) (character_name : str) : outcome RelevantChunks :=
  a <- aspect p ("story title " ++ character_name) ;;
  b <- aspect p ("summary of " ++ character_name ++ "'s role") ;;
  c <- aspect p ("relationships of " ++ character_name) ;;
  e <- aspect p ("character type role of " ++ character_name) ;;
  Return {| rc_story_title := a; rc_summary := b; rc_relations := c; rc_character_type := e |}.

(** Lines 99-103: the sources whose full text holds the name. *)
Fixpoint scan_sources (dk : Disk) (character_name : str) (ms story_sources : list str)
  : outcome (list str) :=
  match ms with
  | [] => Return story_sources
  | src :: rest =>
      match source_files dk src with
      | None => Raise OSError
      | Some content =>
          if Py.contains (Py.lower character_name) (Py.lower content)
          then scan_sources dk character_name rest (Py.set_add src story_sources)
          else scan_sources dk character_name rest story_sources
      end
  end.

(** Lines 87-135, on a processor whose index is resident. *)
Definition assemble (dk : Disk) (p : StoryProcessor) (character_name : str)
  : outcome (option CharacterInfo) :=
  rc <- relevant_chunks p character_name ;;
  story_sources <- scan_sources dk character_name (metadatas p) [] ;;
  match story_sources with
  | [] => Return None
  | _ :: _ =>
      let story_title := Py.replace ".txt" [] (next_iter story_sources) in
      Return (Some {| name := character_name;
                      storyTitle := story_title;
                      summary := firstn 500 (rc_summary rc);
                      relations := firstn 3 (relation_sentences character_name (rc_relations rc));
                      characterType := character_type_of (rc_character_type rc) |})
  end.

(** [get_character_info(character_name)] *)
Definition get_character_info (dk : Disk) (p : StoryProcessor) (character_name : str)
  : outcome (option CharacterInfo) * StoryProcessor :=
  match load_existing dk p with
  | (Raise e, p') => (Raise e, p')
  | (Return _, p') => (assemble dk p' character_name, p')
  end.


End Processor.

(* ================================================================= *)
(** ** Vocabulary of the properties *)

(** [needle] occurs in [hay] as a contiguous run of characters. *)
Definition occurs (needle hay : str) : Prop :=
  exists pre post, hay = pre ++ needle ++ post.

(** [src] is a readable source whose full text holds the name, case
    folded. *)
Definition matches (dk : Disk) (character_name src : str) : Prop :=
  exists content,
    source_files dk src = Some content /\
    Py.contains (Py.lower character_name) (Py.lower content) = true.

Definition readable (dk : Disk) (src : str) : Prop :=
  exists content, source_files dk src = Some content.

(** The occurrence of [c] between [pre] and [post] lies in one of the
    chunks: the chunk is a window of the text around that occurrence. *)
Definition covered (chunks : list str) (pre : str) (c : ascii) (post : str) : Prop :=
  exists chunk before after,
    In chunk chunks /\
    chunk = before ++ c :: after /\
    (exists pre', pre = pre' ++ before) /\
    (exists post', post = after ++ post').

(** Every occurrence of a character that is not whitespace is covered. *)
Definition covers (text : str) (chunks : list str) : Prop :=
  forall pre c post,
    text = pre ++ c :: post -> Py.isspace c = false -> covered chunks pre c post.

(** What the recursive call of the splitter, when there is one, is assumed
    to cover. *)
Definition deeper_covers (deeper : option (str -> list str)) : Prop :=
  match deeper with
  | Some split_further => forall s, covers s (split_further s)
  | None => True
  end.

(** A text shorter than the chunk size is never cut: what is left of it
    after stripping is the only chunk, and there is no chunk when nothing
    is left. *)
Definition whole_text_chunk (text : str) : list str :=
  match Py.strip text with
  | [] => []
  | stripped => [stripped]
  end.

(** The record fields a caller can observe of a lookup outcome. *)
Definition title_of (o : outcome (option CharacterInfo)) : option str :=
  match o with
  | Return (Some r) => Some (storyTitle r)
  | _ => None
  end.

Definition stored {A} (f : file A) : option A :=
  match f with
  | Stored a => Some a
  | _ => None
  end.

(* ================================================================= *)
(** ** Scenarios *)

(** A stand-in embedding model for the scenarios: one component, the length
    of the text. *)
Definition toy_encode (s : str) : list Q := [inject_Z (Z.of_nat (List.length s))].

(** An iteration order for the scenarios: the element added first. *)
Definition first_added (s : list str) : str := hd [] s.

Definition hero_text : str :=
  "Alice is the protagonist of the story. Alice and Bob are friends. Bob is the antagonist.".

Definition no_files : str -> option str := fun _ => None.

Definition one_file (path content : str) : str -> option str :=
  fun p => if Py.str_eqb p path then Some content else None.

Definition empty_disk (files : str -> option str) : Disk :=
  {| index_file := Missing; store_file := Missing; source_files := files |}.

(** The corpus of one document [hero.txt], built and persisted. *)
Definition hero_built : outcome unit * StoryProcessor * Disk :=
  process_stories toy_encode (empty_disk (one_file "hero.txt" hero_text)) init
    [ {| page_content := hero_text; source := "hero.txt" |} ].

Definition hero_disk : Disk := snd hero_built.

(** A corpus of three short stories, one chunk each, built and resident. *)
Definition three_chunks : StoryProcessor :=
  snd (fst (process_stories toy_encode (empty_disk no_files) init
              [ {| page_content := "a"; source := "one.txt" |};
                {| page_content := "bbb"; source := "two.txt" |};
                {| page_content := "cc"; source := "three.txt" |} ])).

(** A persisted pair whose counts differ: one vector, two texts. *)
Definition misaligned_disk : Disk :=
  {| index_file := Stored (Faiss.add (Faiss.new 1) [toy_encode hero_text]);
     store_file := Stored ([hero_text; "An unrelated chunk." : str],
                           [ "hero.txt" : str; "hero.txt" : str ]);
     source_files := one_file "hero.txt" hero_text |}.

(** The same story under the name [hero.md]. *)
Definition hero_md_disk : Disk :=
  snd (process_stories toy_encode (empty_disk (one_file "hero.md" hero_text)) init
         [ {| page_content := hero_text; source := "hero.md" |} ]).

(** The pair built from [hero.txt] and [gone.txt], resident, on a disk
    where only [hero.txt] is still there. *)
Definition partly_unreadable : StoryProcessor :=
  snd (fst (process_stories toy_encode (empty_disk (one_file "hero.txt" hero_text)) init
              [ {| page_content := hero_text; source := "hero.txt" |};
                {| page_content := "Another story."; source := "gone.txt" |} ])).

(* ================================================================= *)
(** ** The rest of the program and the vocabulary of its properties *)

Section Commands.

Variable encode : str -> list Q.

(** Lines 148-152 of the [compute_embeddings] command: each story file is
    read in turn into a [Document] whose source is its path.  A path that
    [click.Path(exists=True)] refuses and a file that [open] cannot read
    both end the command before any story is processed; both are the
    [OSError] of [open] here. *)
Fixpoint read_stories (dk : Disk) (story_files : list str) : outcome (list Document) :=
  match story_files with
  | [] => Return []
  | file_path :: rest =>
      match source_files dk file_path with
      | None => Raise OSError
      | Some content =>
          stories <- read_stories dk rest ;;
          Return ({| page_content := content; source := file_path |} :: stories)
      end
  end.

(** The [compute_embeddings] command (lines 141-155): a fresh processor
    processes the stories read; what is left is the disk. *)
Definition compute_embeddings (dk : Disk) (story_files : list str) : outcome unit * Disk :=
  match read_stories dk story_files with
  | Raise e => (Raise e, dk)
  | Return stories =>
      (fst (fst (process_stories encode dk init stories)),
       snd (process_stories encode dk init stories))
  end.

End Commands.

(** Every character of the text is whitespace. *)
Definition whitespace_only (text : str) : Prop :=
  forall c, In c text -> Py.isspace c = true.

(** The pieces of a text between the occurrences of the character [sep]:
    no piece holds [sep], and the pieces with one [sep] between each two
    are the text. *)
Inductive pieces (sep : ascii) : str -> list str -> Prop :=
| pieces_last (s : str) :
    ~ In sep s -> pieces sep s [s]
| pieces_more (s rest : str) (others : list str) :
    ~ In sep s -> pieces sep rest others -> pieces sep (s ++ sep :: rest) (s :: others).

(** The elements of a list that satisfy [P], in the order of the list. *)
Inductive selected {A : Type} (P : A -> Prop) : list A -> list A -> Prop :=
| selected_nil : selected P [] []
| selected_keep (a : A) (l kept : list A) :
    P a -> selected P l kept -> selected P (a :: l) (a :: kept)
| selected_skip (a : A) (l kept : list A) :
    ~ P a -> selected P l kept -> selected P (a :: l) kept.

(** [trimmed] is [s] without the whitespace at its two ends: [s] is
    [trimmed] between two runs of whitespace, and [trimmed] neither starts
    nor ends with whitespace. *)
Definition trimmed_from (s trimmed : str) : Prop :=
  exists before after,
    s = before ++ trimmed ++ after /\
    whitespace_only before /\
    whitespace_only after /\
    (forall c rest, trimmed = c :: rest -> Py.isspace c = false) /\
    (forall front c, trimmed = front ++ [c] -> Py.isspace c = false).

(** [chunk] is a piece of [text] as the configured splitter cuts it: not
    empty, without whitespace at either end, a contiguous run of the text,
    and of at most [size] characters. *)
Definition chunk_of (size : nat) (text chunk : str) : Prop :=
  chunk <> [] /\
  Py.strip chunk = chunk /\
  occurs chunk text /\
  List.length chunk <= size.

(** The embedding model gives vectors of one dimension. *)
Definition fixed_dimension (encode : str -> list Q) (n : nat) : Prop :=
  forall text, List.length (encode text) = n.

(** The index of the processor holds the embeddings of its texts, in
    order, and every text has its metadata entry. *)
Definition aligned (encode : str -> list Q) (p : StoryProcessor) : Prop :=
  exists idx,
    index p = Some idx /\
    Faiss.xb idx = map encode (texts p) /\
    List.length (texts p) = List.length (metadatas p).

(** The story of the corpus that a stored text and its metadata entry
    come from. *)
Definition chunk_of_story (stories : list Document) (text src : str) : Prop :=
  exists story,
    In story stories /\
    source story = src /\
    In text (text_splitter_split_text (page_content story)).

(** The errors a lookup can end with. *)
Definition lookup_error (e : exn) : Prop :=
  e = ValueError \/ e = RuntimeError \/ e = UnpicklingError \/
  e = AssertionError \/ e = IndexError \/ e = OSError.

(** The chunks of a corpus and their sources, story after story. *)
Definition story_chunks (story : Document) : list str :=
  text_splitter_split_text (page_content story).

Definition corpus_texts (stories : list Document) : list str :=
  flat_map story_chunks stories.

Definition corpus_sources (stories : list Document) : list str :=
  flat_map (fun story => map (fun _ => source story) (story_chunks story)) stories.

(** A resident index with nothing stored. *)
Definition empty_store : StoryProcessor :=
  {| index := Some (Faiss.new 1); texts := []; metadatas := [] |}.

(** A disk where the index file is good and the store file is not. *)
Definition corrupt_store_disk : Disk :=
  {| index_file := Stored (Faiss.add (Faiss.new 1) [toy_encode hero_text]);
     store_file := Corrupt;
     source_files := one_file "hero.txt" hero_text |}.



(* ================================================================= *)
(** ** Strings *)

Lemma str_eqb_eq (a b : str) : Py.str_eqb a b = true <-> a = b.
Proof.
  unfold Py.str_eqb. destruct (list_eq_dec ascii_dec a b); split; congruence.
Qed.

Lemma str_eqb_refl (a : str) : Py.str_eqb a a = true.
Proof. now apply str_eqb_eq. Qed.

Lemma startswith_prefix (p s : str) :
  Py.startswith p s = true <-> exists rest, s = p ++ rest.
Proof.
  revert s. induction p as [|a p IH]; intros s; simpl.
  - split; [intros _; now exists s | reflexivity].
  - destruct s as [|b s].
    + split; [discriminate | intros [rest H]; discriminate].
    + rewrite andb_true_iff, Ascii.eqb_eq, IH. split.
      * intros [-> [rest ->]]. now exists rest.
      * intros [rest H]. injection H as -> ->. split; [reflexivity | now exists rest].
Qed.

Lemma contains_unfold (needle hay : str) :
  Py.contains needle hay =
  Py.startswith needle hay || match hay with [] => false | _ :: t => Py.contains needle t end.
Proof. destruct hay; reflexivity. Qed.

Lemma contains_occurs (needle hay : str) :
  Py.contains needle hay = true <-> occurs needle hay.
Proof.
  unfold occurs. induction hay as [|c hay IH].
  - simpl. rewrite orb_false_r, startswith_prefix. split.
    + intros [rest H]. now exists [], rest.
    + intros [pre [post H]]. destruct pre; [now exists post | discriminate].
  - rewrite contains_unfold, orb_true_iff, startswith_prefix, IH. split.
    + intros [[rest H] | [pre [post H]]].
      * now exists [], rest.
      * exists (c :: pre), post. simpl. now f_equal.
    + intros [pre [post H]]. destruct pre as [|c' pre].
      * left. now exists post.
      * right. injection H as _ H. now exists pre, post.
Qed.

Lemma not_contains_occurs (needle hay : str) :
  Py.contains needle hay = false <-> ~ occurs needle hay.
Proof.
  rewrite <- contains_occurs. destruct (Py.contains needle hay); split; congruence.
Qed.

Lemma contains_empty (hay : str) : Py.contains [] hay = true.
Proof. destruct hay; reflexivity. Qed.

(* ================================================================= *)
(** ** The flat index: what [search] hands back *)

Lemma In_firstn {A} (n : nat) (l : list A) (x : A) : In x (firstn n l) -> In x l.
Proof.
  revert l. induction n as [|n IH]; intros [|a l]; simpl; try tauto.
  intros [H | H]; [now left | right; now apply IH].
Qed.

Lemma insert_In (e x : Q * Z) (l : list (Q * Z)) :
  In x (Faiss.insert e l) <-> x = e \/ In x l.
Proof.
  induction l as [|h t IH]; simpl.
  - intuition.
  - destruct (Qle_bool (fst e) (fst h)); simpl; [|rewrite IH]; intuition.
Qed.

Lemma sort_In (x : Q * Z) (l : list (Q * Z)) : In x (Faiss.sort l) <-> In x l.
Proof.
  induction l as [|h t IH]; simpl; [reflexivity|].
  rewrite insert_In, IH. intuition.
Qed.

Lemma insert_length (e : Q * Z) (l : list (Q * Z)) :
  List.length (Faiss.insert e l) = S (List.length l).
Proof.
  induction l as [|h t IH]; simpl; [reflexivity|].
  destruct (Qle_bool (fst e) (fst h)); simpl; [reflexivity | now rewrite IH].
Qed.

Lemma sort_length (l : list (Q * Z)) : List.length (Faiss.sort l) = List.length l.
Proof.
  induction l as [|h t IH]; simpl; [reflexivity|]. now rewrite insert_length, IH.
Qed.

Lemma enumerate_from_length {A} (i : Z) (l : list A) :
  List.length (Faiss.enumerate_from i l) = List.length l.
Proof. revert i. induction l as [|a t IH]; intros i; simpl; [reflexivity | now rewrite IH]. Qed.

Lemma enumerate_from_In {A} (i j : Z) (a : A) (l : list A) :
  In (j, a) (Faiss.enumerate_from i l) -> (i <= j < i + Z.of_nat (List.length l))%Z.
Proof.
  revert i. induction l as [|b t IH]; intros i; simpl; [tauto|].
  intros [H | H].
  - injection H as <- _. lia.
  - apply IH in H. lia.
Qed.

Lemma neighbours_length (idx : Faiss.IndexFlatL2) (x : list Q) :
  List.length (Faiss.neighbours idx x) = Faiss.ntotal idx.
Proof.
  unfold Faiss.neighbours, Faiss.ntotal.
  now rewrite sort_length, length_map, enumerate_from_length.
Qed.

Lemma neighbours_label (idx : Faiss.IndexFlatL2) (x : list Q) (e : Q * Z) :
  In e (Faiss.neighbours idx x) -> (0 <= snd e < Z.of_nat (Faiss.ntotal idx))%Z.
Proof.
  unfold Faiss.neighbours, Faiss.ntotal. rewrite sort_In, in_map_iff.
  intros [[j v] [<- H]]. simpl. apply enumerate_from_In in H. lia.
Qed.

(** [search] gives one label per requested neighbour, whatever the index
    holds: the first [min k ntotal] are ids of stored vectors, the others
    are [-1]. *)
Lemma search_labels (idx : Faiss.IndexFlatL2) (x : list Q) (k : nat) (D : list Q) (I : list Z) :
  Faiss.search idx x k = Return (D, I) ->
  List.length I = k /\
  List.length D = k /\
  (forall i, In i (firstn (Nat.min k (Faiss.ntotal idx)) I) ->
             (0 <= i < Z.of_nat (Faiss.ntotal idx))%Z) /\
  skipn (Nat.min k (Faiss.ntotal idx)) I = repeat (-1)%Z (k - Faiss.ntotal idx).
Proof.
  unfold Faiss.search. destruct (negb _); [discriminate|].
  destruct (k =? 0); [discriminate|].
  intros H. injection H as <- <-.
  pose proof (neighbours_length idx x) as Hn.
  set (best := firstn k (Faiss.neighbours idx x)).
  assert (Hb : List.length best = Nat.min k (Faiss.ntotal idx)).
  { unfold best. now rewrite length_firstn, Hn. }
  rewrite !length_app, !length_map, !repeat_length, Hb.
  split; [lia|]. split; [lia|]. split.
  - intros i Hi. rewrite <- Hb, <- (length_map snd best), firstn_app, Nat.sub_diag in Hi.
    rewrite firstn_all, firstn_O, app_nil_r in Hi.
    apply in_map_iff in Hi. destruct Hi as [e [<- He]].
    apply neighbours_label with (x := x). unfold best in He.
    now apply In_firstn in He.
  - rewrite <- Hb at 1. rewrite <- (length_map snd best), skipn_app, Nat.sub_diag.
    rewrite skipn_all, skipn_O. simpl. f_equal. lia.
Qed.

Lemma search_dimension (idx : Faiss.IndexFlatL2) (x : list Q) (k : nat) :
  List.length x = Faiss.d idx -> 0 < k ->
  exists D I, Faiss.search idx x k = Return (D, I).
Proof.
  intros H Hk. unfold Faiss.search. rewrite (proj2 (Nat.eqb_eq _ _) H). cbn [negb].
  destruct k; [lia|]. cbn [Nat.eqb]. eexists. eexists. reflexivity.
Qed.

(* ================================================================= *)
(** ** Python list access *)

Lemma getitem_in_range {A} (l : list A) (i : Z) :
  (0 <= i < Z.of_nat (List.length l))%Z -> exists a, Py.getitem l i = Return a.
Proof.
  intros H. unfold Py.getitem.
  destruct (i <? 0)%Z eqn:E; [apply Z.ltb_lt in E; lia|].
  rewrite E. destruct (nth_error l (Z.to_nat i)) eqn:N; [now eexists|].
  apply nth_error_None in N. lia.
Qed.

(** The label [-1] is a valid Python index: it reads the last element. *)
Lemma getitem_minus_one {A} (l : list A) (a : A) :
  Py.getitem (l ++ [a]) (-1) = Return a.
Proof.
  unfold Py.getitem. change (-1 <? 0)%Z with true. cbv zeta iota beta.
  rewrite length_app. simpl List.length.
  replace (Z.of_nat (List.length l + 1) + -1)%Z with (Z.of_nat (List.length l)) by lia.
  destruct (Z.of_nat (List.length l) <? 0)%Z eqn:E; [apply Z.ltb_lt in E; lia|].
  rewrite Nat2Z.id, nth_error_app2, Nat.sub_diag by lia. reflexivity.
Qed.

Lemma comprehension_length {A B} (f : A -> outcome B) (xs : list A) (ys : list B) :
  Py.comprehension f xs = Return ys -> List.length ys = List.length xs.
Proof.
  revert ys. induction xs as [|x xs IH]; intros ys; simpl.
  - intros H. now injection H as <-.
  - destruct (f x); simpl; [|discriminate].
    destruct (Py.comprehension f xs); simpl; [|discriminate].
    intros H. injection H as <-. simpl. f_equal. now apply IH.
Qed.

Lemma comprehension_total {A B} (f : A -> outcome B) (xs : list A) :
  (forall x, In x xs -> exists y, f x = Return y) ->
  exists ys, Py.comprehension f xs = Return ys.
Proof.
  induction xs as [|x xs IH]; intros H; simpl.
  - now eexists.
  - destruct (H x (or_introl eq_refl)) as [y ->]. simpl.
    destruct IH as [ys ->]; [intros z Hz; apply H; now right|].
    simpl. now eexists.
Qed.

(* ================================================================= *)
(** ** Retrieval *)

Section Retrieval.

Variable encode : str -> list Q.

Lemma find_relevant_chunks_length (p : StoryProcessor) (query : str) (k : nat) (chunks : list str) :
  find_relevant_chunks encode p query k = Return chunks -> List.length chunks = k.
Proof.
  unfold find_relevant_chunks. destruct (index p) as [idx|]; [|discriminate].
  destruct (Faiss.search idx (encode query) k) as [[D I]|] eqn:S; simpl; [|discriminate].
  intros H. apply comprehension_length in H. apply search_labels in S. lia.
Qed.

(** Retrieval succeeds on a resident index of the model's dimension whose
    ids all have a text, provided there is a text at all for the padding
    label to read. *)
Lemma find_relevant_chunks_returns (p : StoryProcessor) (idx : Faiss.IndexFlatL2)
    (query : str) (k : nat) :
  index p = Some idx ->
  List.length (encode query) = Faiss.d idx ->
  0 < k ->
  texts p <> [] ->
  Faiss.ntotal idx <= List.length (texts p) ->
  exists chunks, find_relevant_chunks encode p query k = Return chunks.
Proof.
  intros Hi Hd Hk Ht Hn. unfold find_relevant_chunks. rewrite Hi.
  destruct (search_dimension idx (encode query) k Hd Hk) as [D [I S]]. rewrite S. simpl.
  apply search_labels in S. destruct S as [_ [_ [Hin Hpad]]].
  apply comprehension_total. intros i Hi'.
  rewrite <- (firstn_skipn (Nat.min k (Faiss.ntotal idx)) I) in Hi'.
  apply in_app_or in Hi'. destruct Hi' as [Hi' | Hi'].
  - apply getitem_in_range. apply Hin in Hi'. lia.
  - rewrite Hpad in Hi'. apply repeat_spec in Hi'. subst i.
    destruct (exists_last Ht) as [l [a ->]]. eexists. apply getitem_minus_one.
Qed.

Lemma join_cons_cons (sep a b : str) (rest : list str) :
  Py.join sep (a :: b :: rest) = a ++ sep ++ Py.join sep (b :: rest).
Proof. reflexivity. Qed.

Lemma aspect_inv (p : StoryProcessor) (query text : str) :
  aspect encode p query = Return text ->
  exists chunks,
    find_relevant_chunks encode p query 5 = Return chunks /\
    List.length chunks = 5 /\
    text = Py.join " " chunks.
Proof.
  unfold aspect. destruct (find_relevant_chunks encode p query 5) as [chunks|] eqn:F;
    simpl; [|discriminate].
  intros H. injection H as <-. exists chunks.
  split; [reflexivity|]. split; [|reflexivity].
  now apply find_relevant_chunks_length in F.
Qed.

(** Five chunks joined by spaces hold at least the four spaces. *)
Lemma aspect_not_empty (p : StoryProcessor) (query text : str) :
  aspect encode p query = Return text -> text <> [].
Proof.
  intros H. apply aspect_inv in H. destruct H as [chunks [_ [L ->]]].
  destruct chunks as [|a [|b rest]]; try discriminate.
  rewrite join_cons_cons. destruct a; discriminate.
Qed.

Lemma relevant_chunks_inv (p : StoryProcessor) (character_name : str) (rc : RelevantChunks) :
  relevant_chunks encode p character_name = Return rc ->
  aspect encode p ("story title " ++ character_name) = Return (rc_story_title rc) /\
  aspect encode p ("summary of " ++ character_name ++ "'s role") = Return (rc_summary rc) /\
  aspect encode p ("relationships of " ++ character_name) = Return (rc_relations rc) /\
  aspect encode p ("character type role of " ++ character_name) = Return (rc_character_type rc).
Proof.
  unfold relevant_chunks.
  destruct (aspect encode p ("story title " ++ character_name)); cbn [bind]; [|discriminate].
  destruct (aspect encode p ("summary of " ++ character_name ++ "'s role")); cbn [bind]; [|discriminate].
  destruct (aspect encode p ("relationships of " ++ character_name)); cbn [bind]; [|discriminate].
  destruct (aspect encode p ("character type role of " ++ character_name)); cbn [bind]; [|discriminate].
  intros H. injection H as <-. simpl. auto.
Qed.

Lemma relevant_chunks_returns (p : StoryProcessor) (idx : Faiss.IndexFlatL2) (character_name : str) :
  index p = Some idx ->
  (forall query, List.length (encode query) = Faiss.d idx) ->
  texts p <> [] ->
  Faiss.ntotal idx <= List.length (texts p) ->
  exists rc, relevant_chunks encode p character_name = Return rc.
Proof.
  intros Hi Hd Ht Hn.
  assert (A : forall query, exists text, aspect encode p query = Return text).
  { intros query. unfold aspect.
    destruct (find_relevant_chunks_returns p idx query 5 Hi (Hd query) ltac:(lia) Ht Hn)
      as [chunks ->].
    simpl. now eexists. }
  unfold relevant_chunks.
  destruct (A ("story title " ++ character_name)) as [a ->].
  destruct (A ("summary of " ++ character_name ++ "'s role")) as [b ->].
  destruct (A ("relationships of " ++ character_name)) as [c ->].
  destruct (A ("character type role of " ++ character_name)) as [e ->].
  cbn [bind]. now eexists.
Qed.

End Retrieval.

(* ================================================================= *)
(** ** The presence check *)

Lemma mem_In (x : str) (s : list str) : Py.mem x s = true <-> In x s.
Proof.
  induction s as [|y t IH]; simpl; [split; [discriminate | tauto]|].
  rewrite orb_true_iff, str_eqb_eq, IH. intuition.
Qed.

Lemma set_add_In (x y : str) (s : list str) : In y (Py.set_add x s) <-> y = x \/ In y s.
Proof.
  unfold Py.set_add. destruct (Py.mem x s) eqn:M.
  - apply mem_In in M. split; [tauto | intros [-> | H]; assumption].
  - rewrite in_app_iff. simpl. intuition.
Qed.

Lemma scan_sources_Return (dk : Disk) (character_name : str) (ms acc story_sources : list str) :
  scan_sources dk character_name ms acc = Return story_sources ->
  (forall src, In src ms -> readable dk src) /\
  (forall src, In src story_sources <->
               In src acc \/ (In src ms /\ matches dk character_name src)).
Proof.
  revert acc. induction ms as [|m ms IH]; intros acc; simpl.
  - intros H. injection H as <-. split; [tauto | intros src; tauto].
  - destruct (source_files dk m) as [content|] eqn:R; [|discriminate].
    destruct (Py.contains _ _) eqn:C; intros H; apply IH in H; destruct H as [H1 H2].
    + split.
      * intros src [<- | Hs]; [now exists content | now apply H1].
      * intros src. rewrite H2, set_add_In. split.
        -- intros [[-> | Ha] | [Hm Hc]]; [right; split; [now left | now exists content] | now left | tauto].
        -- intros [Ha | [[<- | Hm] Hc]]; [left; now right | left; now left | tauto].
    + split.
      * intros src [<- | Hs]; [now exists content | now apply H1].
      * intros src. rewrite H2. split; [tauto|].
        intros [Ha | [[<- | Hm] Hc]]; [tauto | | tauto].
        destruct Hc as [content' [R' C']]. congruence.
Qed.

Lemma scan_sources_Raise (dk : Disk) (character_name : str) (ms acc : list str) (e : exn) :
  scan_sources dk character_name ms acc = Raise e ->
  e = OSError /\ exists src, In src ms /\ source_files dk src = None.
Proof.
  revert acc. induction ms as [|m ms IH]; intros acc; simpl; [discriminate|].
  destruct (source_files dk m) as [content|] eqn:R.
  - destruct (Py.contains _ _); intros H; apply IH in H;
      destruct H as [-> [src [Hs Hn]]]; (split; [reflexivity | exists src; tauto]).
  - intros H. injection H as <-. split; [reflexivity | exists m; tauto].
Qed.

Lemma scan_sources_returns (dk : Disk) (character_name : str) (ms acc : list str) :
  (forall src, In src ms -> readable dk src) ->
  exists story_sources, scan_sources dk character_name ms acc = Return story_sources.
Proof.
  intros H. destruct (scan_sources dk character_name ms acc) as [ss|e] eqn:S; [now eexists|].
  apply scan_sources_Raise in S. destruct S as [_ [src [Hs Hn]]].
  destruct (H src Hs) as [content Hc]. congruence.
Qed.

(* ================================================================= *)
(** ** Lookup: how each result arises *)

Section Lookup.

Variable encode : str -> list Q.
Variable next_iter : list str -> str.

Lemma load_existing_resident (dk : Disk) (p p' : StoryProcessor) :
  load_existing dk p = (Return tt, p') -> exists idx, index p' = Some idx.
Proof.
  unfold load_existing. destruct (index p) as [idx|] eqn:I.
  - intros H. injection H as <-. now exists idx.
  - destruct (negb _ || negb _); [discriminate|].
    destruct (index_file dk) as [| |idx]; try discriminate.
    destruct (store_file dk) as [| |data]; try discriminate.
    intros H. injection H as <-. now exists idx.
Qed.

Lemma get_character_info_load (dk : Disk) (p p' : StoryProcessor) (character_name : str)
    (o : option CharacterInfo) :
  get_character_info encode next_iter dk p character_name = (Return o, p') ->
  load_existing dk p = (Return tt, p') /\
  assemble encode next_iter dk p' character_name = Return o.
Proof.
  unfold get_character_info. destruct (load_existing dk p) as [[[]|e] p1]; [|discriminate].
  intros H. injection H as H <-. auto.
Qed.

Lemma assemble_Some (dk : Disk) (p : StoryProcessor) (character_name : str) (r : CharacterInfo) :
  assemble encode next_iter dk p character_name = Return (Some r) ->
  exists rc story_sources,
    relevant_chunks encode p character_name = Return rc /\
    scan_sources dk character_name (metadatas p) [] = Return story_sources /\
    story_sources <> [] /\
    r = {| name := character_name;
           storyTitle := Py.replace ".txt" [] (next_iter story_sources);
           summary := firstn 500 (rc_summary rc);
           relations := firstn 3 (relation_sentences character_name (rc_relations rc));
           characterType := character_type_of (rc_character_type rc) |}.
Proof.
  unfold assemble.
  destruct (relevant_chunks encode p character_name) as [rc|]; cbn [bind]; [|discriminate].
  destruct (scan_sources dk character_name (metadatas p) []) as [[|s ss]|]; cbn [bind];
    try discriminate.
  intros H. injection H as <-. exists rc, (s :: ss). repeat split. discriminate.
Qed.

Lemma assemble_None (dk : Disk) (p : StoryProcessor) (character_name : str) :
  assemble encode next_iter dk p character_name = Return None <->
  (exists rc, relevant_chunks encode p character_name = Return rc) /\
  scan_sources dk character_name (metadatas p) [] = Return [].
Proof.
  unfold assemble. split.
  - destruct (relevant_chunks encode p character_name) as [rc|]; cbn [bind]; [|discriminate].
    destruct (scan_sources dk character_name (metadatas p) []) as [[|s ss]|]; cbn [bind];
      try discriminate.
    intros _. split; [now exists rc | reflexivity].
  - intros [[rc ->] ->]. reflexivity.
Qed.

Lemma scan_sources_empty (dk : Disk) (character_name : str) (ms : list str) :
  scan_sources dk character_name ms [] = Return [] <->
  forall src, In src ms ->
    exists content,
      source_files dk src = Some content /\
      Py.contains (Py.lower character_name) (Py.lower content) = false.
Proof.
  split.
  - intros H src Hs. apply scan_sources_Return in H. destruct H as [H1 H2].
    destruct (H1 src Hs) as [content R]. exists content. split; [assumption|].
    destruct (Py.contains _ _) eqn:C; [|reflexivity].
    exfalso. apply (proj2 (H2 src)). right. split; [assumption | now exists content].
  - intros H.
    destruct (scan_sources_returns dk character_name ms []) as [ss S].
    { intros src Hs. destruct (H src Hs) as [content [R _]]. now exists content. }
    rewrite S. f_equal. destruct ss as [|s ss]; [reflexivity|]. exfalso.
    apply scan_sources_Return in S. destruct S as [_ S].
    destruct (proj1 (S s) (or_introl eq_refl)) as [[] | [Hs [content [R C]]]].
    destruct (H s Hs) as [content' [R' C']]. congruence.
Qed.

End Lookup.

(* ================================================================= *)
(** ** [split] on a one-character separator *)

Lemma split_from_nonempty (sep : str) (skip : nat) (s : str) : Py.split_from sep skip s <> [].
Proof.
  revert skip. induction s as [|c t IH]; intros skip; simpl; [discriminate|].
  destruct skip; [|apply IH].
  destruct (Py.startswith sep (c :: t)); [discriminate|].
  destruct (Py.split_from sep 0 t); discriminate.
Qed.

Lemma split_char_cons (c a : ascii) (t : str) :
  Py.split [c] (a :: t) =
  if Ascii.eqb c a then [] :: Py.split [c] t
  else match Py.split [c] t with
       | p :: ps => (a :: p) :: ps
       | [] => [[a]]
       end.
Proof.
  unfold Py.split. simpl. destruct (Ascii.eqb c a); reflexivity.
Qed.

(** The pieces of [s.split(c)], joined by [c] again, are [s]. *)
Lemma split_char_join (c : ascii) (s : str) : Py.join [c] (Py.split [c] s) = s.
Proof.
  induction s as [|a t IH]; [reflexivity|].
  rewrite split_char_cons. destruct (Ascii.eqb c a) eqn:E.
  - apply Ascii.eqb_eq in E. subst a.
    pose proof (split_from_nonempty [c] 0 t) as N. fold (Py.split [c] t) in N.
    destruct (Py.split [c] t) as [|p ps]; [contradiction|].
    rewrite join_cons_cons, IH. reflexivity.
  - pose proof (split_from_nonempty [c] 0 t) as N. fold (Py.split [c] t) in N.
    destruct (Py.split [c] t) as [|p ps]; [contradiction|].
    destruct ps as [|q ps]; simpl in *; now rewrite IH.
Qed.

(** No piece of [s.split(c)] holds [c]. *)
Lemma split_char_pieces (c : ascii) (s piece : str) :
  In piece (Py.split [c] s) -> ~ In c piece.
Proof.
  revert piece. induction s as [|a t IH]; intros piece.
  - intros [<- | []]. tauto.
  - rewrite split_char_cons. destruct (Ascii.eqb c a) eqn:E.
    + intros [<- | H]; [tauto | now apply IH].
    + apply Ascii.eqb_neq in E.
      destruct (Py.split [c] t) as [|p ps].
      * intros [<- | []]. intros [H | []]. congruence.
      * intros [<- | H].
        -- intros [H | H]; [congruence | revert H; apply IH; now left].
        -- apply IH. now right.
Qed.

(* ================================================================= *)
(** ** [replace] of ".txt" *)

Lemma occurs_cons (needle hay : str) (c : ascii) : occurs needle hay -> occurs needle (c :: hay).
Proof. intros [pre [post ->]]. now exists (c :: pre), post. Qed.

Lemma replace_cons_other (old new : str) (c : ascii) (t : str) :
  Py.startswith old (c :: t) = false ->
  Py.replace old new (c :: t) = c :: Py.replace old new t.
Proof. unfold Py.replace. simpl Py.replace_from. now intros ->. Qed.

(** A string that does not hold [old] is left as it is. *)
Lemma replace_absent (old new s : str) : ~ occurs old s -> Py.replace old new s = s.
Proof.
  induction s as [|c t IH]; intros H; [reflexivity|].
  rewrite replace_cons_other.
  - f_equal. apply IH. intros O. apply H. now apply occurs_cons.
  - destruct (Py.startswith old (c :: t)) eqn:E; [|reflexivity].
    exfalso. apply H. apply startswith_prefix in E. destruct E as [rest ->]. now exists [], rest.
Qed.

Lemma txt_not_straddling (base : str) :
  base <> [] -> ~ occurs ".txt" base -> Py.startswith ".txt" (base ++ ".txt") = false.
Proof.
  intros N H. destruct (Py.startswith ".txt" (base ++ ".txt")) eqn:E; [|reflexivity]. exfalso.
  destruct base as [|c0 [|c1 [|c2 [|c3 rest]]]]; [contradiction| | | |];
    cbn [Py.startswith app list_ascii_of_string] in E.
  - destruct (Ascii.eqb "." c0); cbn in E; discriminate.
  - destruct (Ascii.eqb "." c0), (Ascii.eqb "t" c1); cbn in E; discriminate.
  - destruct (Ascii.eqb "." c0), (Ascii.eqb "t" c1), (Ascii.eqb "x" c2); cbn in E; discriminate.
  - apply H. exists []. apply startswith_prefix.
    cbn [Py.startswith app list_ascii_of_string].
    destruct (Ascii.eqb "." c0), (Ascii.eqb "t" c1), (Ascii.eqb "x" c2), (Ascii.eqb "t" c3);
      cbn in E; try discriminate; reflexivity.
Qed.

(** A trailing ".txt" is removed from a name that holds no other. *)
Lemma replace_txt_suffix (base : str) :
  ~ occurs ".txt" base -> Py.replace ".txt" [] (base ++ ".txt") = base.
Proof.
  induction base as [|c t IH]; intros H; [reflexivity|].
  change ((c :: t) ++ ".txt") with (c :: (t ++ ".txt")).
  rewrite replace_cons_other.
  - f_equal. apply IH. intros O. apply H. now apply occurs_cons.
  - apply (txt_not_straddling (c :: t)); [discriminate | assumption].
Qed.

(* ================================================================= *)
(** ** [split] on any separator, [strip], [join] *)

Lemma split_from_skip (sep : str) (n : nat) (s : str) :
  Py.split_from sep n s = Py.split_from sep 0 (skipn n s).
Proof.
  revert n. induction s as [|c t IH]; intros n.
  - now rewrite skipn_nil.
  - destruct n as [|n]; [reflexivity|]. simpl. apply IH.
Qed.

Lemma join_cons_nonempty (sep a : str) (l : list str) :
  l <> [] -> Py.join sep (a :: l) = a ++ sep ++ Py.join sep l.
Proof. destruct l; [contradiction | reflexivity]. Qed.

(** The pieces of [s.split(sep)], joined by [sep] again, are [s]. *)
Lemma split_join (sep s : str) : sep <> [] -> Py.join sep (Py.split sep s) = s.
Proof.
  intros N. unfold Py.split.
  remember (List.length s) as n eqn:L. revert s L.
  induction n as [n IH] using lt_wf_ind. intros s L.
  destruct s as [|c t]; [reflexivity|].
  simpl Py.split_from. destruct (Py.startswith sep (c :: t)) eqn:E.
  - apply startswith_prefix in E. destruct E as [rest E].
    destruct sep as [|a sep']; [contradiction|].
    injection E as <- ->.
    rewrite split_from_skip.
    replace (List.length (c :: sep') - 1) with (List.length sep') by (simpl; lia).
    rewrite skipn_app, skipn_all, Nat.sub_diag. simpl skipn. simpl app at 1.
    rewrite join_cons_nonempty by apply split_from_nonempty.
    rewrite (IH (List.length rest)); [reflexivity | | reflexivity].
    subst n. simpl. rewrite length_app. lia.
  - pose proof (split_from_nonempty sep 0 t) as Hne.
    pose proof (IH (List.length t) ltac:(subst n; simpl; lia) t eq_refl) as Ht.
    destruct (Py.split_from sep 0 t) as [|p ps]; [contradiction|].
    destruct ps as [|q ps]; simpl in *; now rewrite Ht.
Qed.

Lemma join_empty_sep (l : list str) : Py.join [] l = List.concat l.
Proof.
  induction l as [|a l IH]; [reflexivity|].
  destruct l as [|b l]; [simpl; now rewrite app_nil_r|].
  rewrite join_cons_cons, IH. reflexivity.
Qed.

Lemma lstrip_suffix (s : str) : exists ws, s = ws ++ Py.lstrip s.
Proof.
  induction s as [|c t [ws IH]]; [now exists []|].
  simpl. destruct (Py.isspace c).
  - exists (c :: ws). simpl. now f_equal.
  - now exists [].
Qed.

Lemma rstrip_prefix (s : str) : exists ws, s = Py.rstrip s ++ ws.
Proof.
  unfold Py.rstrip. destruct (lstrip_suffix (rev s)) as [ws H].
  exists (rev ws). rewrite <- rev_app_distr, <- H. now rewrite rev_involutive.
Qed.

(** An occurrence of a non-whitespace character survives [lstrip], with
    what follows it and the end of what precedes it. *)
Lemma lstrip_window (x : str) (c : ascii) (y : str) :
  Py.isspace c = false ->
  exists x' ws, Py.lstrip (x ++ c :: y) = x' ++ c :: y /\ x = ws ++ x'.
Proof.
  intros Hc. induction x as [|a x [x' [ws [IH1 IH2]]]].
  - exists [], []. simpl. now rewrite Hc.
  - simpl. destruct (Py.isspace a).
    + exists x', (a :: ws). split; [assumption | simpl; now f_equal].
    + exists (a :: x), []. split; reflexivity.
Qed.

Lemma rstrip_window (x : str) (c : ascii) (y : str) :
  Py.isspace c = false ->
  exists y' ws, Py.rstrip (x ++ c :: y) = x ++ c :: y' /\ y = y' ++ ws.
Proof.
  intros Hc. unfold Py.rstrip.
  destruct (lstrip_window (rev y) c (rev x) Hc) as [z [ws [H1 H2]]].
  exists (rev z), (rev ws). split.
  - rewrite rev_app_distr. simpl rev. rewrite <- app_assoc. simpl. rewrite H1.
    rewrite rev_app_distr. simpl. rewrite rev_involutive, <- app_assoc. reflexivity.
  - rewrite <- rev_app_distr, <- H2. now rewrite rev_involutive.
Qed.

Lemma strip_window (x : str) (c : ascii) (y : str) :
  Py.isspace c = false ->
  exists x' y' wx wy, Py.strip (x ++ c :: y) = x' ++ c :: y' /\ x = wx ++ x' /\ y = y' ++ wy.
Proof.
  intros Hc. unfold Py.strip.
  destruct (lstrip_window x c y Hc) as [x' [wx [H1 H2]]].
  destruct (rstrip_window x' c y Hc) as [y' [wy [H3 H4]]].
  exists x', y', wx, wy. rewrite H1, H3. auto.
Qed.

Lemma strip_length (s : str) : List.length (Py.strip s) <= List.length s.
Proof.
  unfold Py.strip.
  destruct (rstrip_prefix (Py.lstrip s)) as [w1 H1].
  destruct (lstrip_suffix s) as [w2 H2].
  rewrite H2 at 2. rewrite H1 at 2. rewrite !length_app. lia.
Qed.

(* ================================================================= *)
(** ** The splitter: pieces *)

Lemma keep_separator_concat (sep : str) (others : list str) :
  others <> [] ->
  List.concat (map (fun piece => sep ++ piece) others) = sep ++ Py.join sep others.
Proof.
  induction others as [|o os IH]; [contradiction|]. intros _.
  destruct os as [|o' os].
  - simpl. now rewrite app_nil_r.
  - rewrite join_cons_cons. simpl map. simpl List.concat.
    change (List.concat (map (fun piece => sep ++ piece) (o' :: os)))
      with ((sep ++ o') ++ List.concat (map (fun piece => sep ++ piece) os)) in IH.
    rewrite IH by discriminate. now rewrite <- app_assoc.
Qed.

Lemma concat_nonempty (l : list str) :
  List.concat (filter (fun s => negb (Py.str_eqb s [])) l) = List.concat l.
Proof.
  induction l as [|a l IH]; [reflexivity|]. simpl.
  destruct (Py.str_eqb a []) eqn:E; simpl.
  - apply str_eqb_eq in E. subst a. exact IH.
  - now rewrite IH.
Qed.

(** The pieces of a text, in order, make up the text: with
    [keep_separator] nothing is dropped by the split. *)
Lemma regex_split_concat (text separator : str) :
  List.concat (Splitter._split_text_with_regex text separator) = text.
Proof.
  unfold Splitter._split_text_with_regex. rewrite concat_nonempty.
  destruct separator as [|a sep].
  - induction text as [|c t IH]; [reflexivity | simpl; now rewrite IH].
  - pose proof (split_join (a :: sep) text ltac:(discriminate)) as J.
    pose proof (split_from_nonempty (a :: sep) 0 text) as N. fold (Py.split (a :: sep) text) in N.
    destruct (Py.split (a :: sep) text) as [|first others]; [contradiction|].
    destruct others as [|o os].
    + simpl in *. now rewrite app_nil_r.
    + change (List.concat (first :: map (fun piece => (a :: sep) ++ piece) (o :: os)))
        with (first ++ List.concat (map (fun piece => (a :: sep) ++ piece) (o :: os))).
      rewrite keep_separator_concat by discriminate.
      rewrite join_cons_cons in J. exact J.
Qed.

Lemma concat_piece_length (l : list str) (s : str) :
  In s l -> List.length s <= List.length (List.concat l).
Proof.
  induction l as [|a l IH]; [contradiction|]. simpl. rewrite length_app.
  intros [<- | H]; [lia | apply IH in H; lia].
Qed.

(** Where an occurrence in a concatenation lies: in the front part or in
    the back part. *)
Lemma occurrence_in_app (a b pre : str) (c : ascii) (post : str) :
  a ++ b = pre ++ c :: post ->
  (exists q, a = pre ++ c :: q /\ post = q ++ b) \/
  (exists p, pre = a ++ p /\ b = p ++ c :: post).
Proof.
  revert pre. induction a as [|x a IH]; intros pre H.
  - right. now exists pre.
  - destruct pre as [|y pre].
    + injection H as -> H. left. now exists a.
    + injection H as -> H. destruct (IH pre H) as [[q [-> ->]] | [p [-> ->]]].
      * left. now exists q.
      * right. now exists p.
Qed.

(* ================================================================= *)
(** ** The splitter: what the chunks cover *)

Lemma covered_app_l (l1 l2 : list str) (pre : str) (c : ascii) (post : str) :
  covered l1 pre c post -> covered (l1 ++ l2) pre c post.
Proof.
  intros [chunk [b [a [H1 H2]]]]. exists chunk, b, a. split; [|assumption].
  apply in_or_app. now left.
Qed.

Lemma covered_app_r (l1 l2 : list str) (pre : str) (c : ascii) (post : str) :
  covered l2 pre c post -> covered (l1 ++ l2) pre c post.
Proof.
  intros [chunk [b [a [H1 H2]]]]. exists chunk, b, a. split; [|assumption].
  apply in_or_app. now right.
Qed.

Lemma covered_context (chunks : list str) (pre0 pre : str) (c : ascii) (post post0 : str) :
  covered chunks pre c post -> covered chunks (pre0 ++ pre) c (post ++ post0).
Proof.
  intros [chunk [b [a [H1 [H2 [[pre' ->] [post' ->]]]]]]].
  exists chunk, b, a. split; [assumption|]. split; [assumption|]. split.
  - exists (pre0 ++ pre'). now rewrite app_assoc.
  - exists (post' ++ post0). now rewrite app_assoc.
Qed.

Lemma covered_front (chunks : list str) (pre : str) (c : ascii) (post post0 : str) :
  covered chunks pre c post -> covered chunks pre c (post ++ post0).
Proof. intros H. apply (covered_context chunks [] pre c post post0 H). Qed.

Lemma covered_back (chunks : list str) (pre0 pre : str) (c : ascii) (post : str) :
  covered chunks pre c post -> covered chunks (pre0 ++ pre) c post.
Proof.
  intros H. pose proof (covered_context chunks pre0 pre c post [] H) as H'.
  now rewrite app_nil_r in H'.
Qed.

Lemma append_doc_app (doc : option str) (docs : list str) :
  Splitter.append_doc doc docs = Splitter.append_doc doc [] ++ docs.
Proof. destruct doc; reflexivity. Qed.

(** A joined document covers the non-whitespace of its pieces. *)
Lemma join_docs_covers (docs : list str) (pre : str) (c : ascii) (post : str) :
  List.concat docs = pre ++ c :: post ->
  Py.isspace c = false ->
  covered (Splitter.append_doc (Splitter._join_docs docs []) []) pre c post.
Proof.
  intros H Hc. unfold Splitter._join_docs. rewrite join_empty_sep, H.
  destruct (strip_window pre c post Hc) as [x' [y' [wx [wy [S [Hx Hy]]]]]].
  rewrite S. destruct (x' ++ c :: y') as [|h t] eqn:E; [destruct x'; discriminate|].
  rewrite <- E. exists (x' ++ c :: y'), x', y'. split; [now left|].
  split; [reflexivity|]. split; [now exists wx | now exists wy].
Qed.

Section MergeCovers.

Variables chunk_size chunk_overlap : nat.
Variable separator : str.

Lemma pop_front_suffix (_len : nat) (current_doc : list str) (total : nat) :
  exists dropped,
    current_doc
    = dropped ++ fst (Splitter.pop_front chunk_size chunk_overlap separator _len current_doc total).
Proof.
  revert total. induction current_doc as [|first others IH]; intros total.
  - exists []. simpl. now destruct (_ || _).
  - simpl. destruct (_ || _).
    + destruct (IH (total - (List.length first +
                              (if 1 <? S (List.length others) then List.length separator else 0))))
        as [dropped H].
      exists (first :: dropped). simpl. now f_equal.
    + now exists [].
Qed.

(** One round of the loop of [_merge_splits]: the piece joins the current
    document, or the current document is emitted first and the piece joins
    what is kept of it. *)
Lemma merge_loop_step (d : str) (rest current_doc : list str) (total : nat) :
  exists total',
    Splitter.merge_loop chunk_size chunk_overlap separator (d :: rest) current_doc total
    = Splitter.merge_loop chunk_size chunk_overlap separator rest (current_doc ++ [d]) total'
    \/
    exists dropped kept,
      current_doc = dropped ++ kept /\
      Splitter.merge_loop chunk_size chunk_overlap separator (d :: rest) current_doc total
      = Splitter.append_doc (Splitter._join_docs current_doc separator)
          (Splitter.merge_loop chunk_size chunk_overlap separator rest (kept ++ [d]) total').
Proof.
  simpl. destruct (_ && _).
  - destruct (pop_front_suffix (List.length d) current_doc total) as [dropped H].
    eexists. right. exists dropped. eexists. split; [exact H | reflexivity].
  - eexists. left. reflexivity.
Qed.

End MergeCovers.

Lemma merge_loop_covers (chunk_size chunk_overlap : nat) (splits current_doc : list str)
    (total : nat) (pre : str) (c : ascii) (post : str) :
  List.concat (current_doc ++ splits) = pre ++ c :: post ->
  Py.isspace c = false ->
  covered (Splitter.merge_loop chunk_size chunk_overlap [] splits current_doc total) pre c post.
Proof.
  intros H Hc. revert current_doc total pre post H.
  induction splits as [|d rest IH]; intros current_doc total pre post H.
  - rewrite app_nil_r in H. now apply join_docs_covers.
  - destruct (merge_loop_step chunk_size chunk_overlap [] d rest current_doc total)
      as [total' [-> | [dropped [kept [Hcur ->]]]]].
    + apply IH. now rewrite <- app_assoc.
    + rewrite append_doc_app. rewrite concat_app in H.
      destruct (occurrence_in_app _ _ _ _ _ H) as [[q [Ha ->]] | [p [-> Hb]]].
      * apply covered_app_l, covered_front. now apply join_docs_covers.
      * apply covered_app_r. subst current_doc. rewrite concat_app, <- app_assoc.
        apply covered_back. apply IH.
        rewrite <- (app_assoc kept [d] rest). simpl app.
        rewrite concat_app, Hb. now rewrite app_assoc.
Qed.

Section SplitCovers.

Variables chunk_size chunk_overlap : nat.

Lemma flush_covers (good : list str) (pre : str) (c : ascii) (post : str) :
  List.concat good = pre ++ c :: post ->
  Py.isspace c = false ->
  covered (Splitter.flush chunk_size chunk_overlap good) pre c post.
Proof.
  intros H Hc. destruct good as [|g good].
  - destruct pre; discriminate.
  - unfold Splitter.flush, Splitter._merge_splits. now apply merge_loop_covers.
Qed.

Lemma each_split_covers (deeper : option (str -> list str)) (splits good : list str)
    (pre : str) (c : ascii) (post : str) :
  deeper_covers deeper ->
  List.concat (good ++ splits) = pre ++ c :: post ->
  Py.isspace c = false ->
  covered (Splitter.each_split chunk_size chunk_overlap deeper splits good) pre c post.
Proof.
  intros Hd H Hc. revert good pre post H.
  induction splits as [|s rest IH]; intros good pre post H.
  - rewrite app_nil_r in H. now apply flush_covers.
  - simpl. destruct (List.length s <? chunk_size).
    + apply IH. now rewrite <- app_assoc.
    + rewrite concat_app in H.
      destruct (occurrence_in_app _ _ _ _ _ H) as [[q [Ha ->]] | [p [-> Hb]]].
      * apply covered_app_l, covered_front. now apply flush_covers.
      * apply covered_app_r, covered_back. simpl in Hb.
        destruct (occurrence_in_app _ _ _ _ _ Hb) as [[q [Ha ->]] | [p' [-> Hb']]].
        -- apply covered_app_l, covered_front.
           destruct deeper as [split_further|].
           ++ now apply (Hd s).
           ++ exists s, p, q. split; [now left|]. split; [assumption|].
              split; [now exists [] | exists []; now rewrite app_nil_r].
        -- apply covered_app_r, covered_back. now apply (IH []).
Qed.

Lemma split_on_covers (separator : str) (deeper : option (str -> list str)) (text : str) :
  deeper_covers deeper ->
  covers text (Splitter.split_on chunk_size chunk_overlap separator deeper text).
Proof.
  intros Hd pre c post H Hc. unfold Splitter.split_on.
  apply each_split_covers; try assumption.
  simpl app. now rewrite regex_split_concat.
Qed.

Lemma _split_text_covers (last : str) (seps : list str) (text : str) :
  covers text (Splitter._split_text chunk_size chunk_overlap last seps text).
Proof.
  revert text. induction seps as [|s new_separators IH]; intros text; simpl.
  - now apply split_on_covers.
  - destruct (Py.str_eqb s []); [now apply split_on_covers|].
    destruct (Py.contains s text); [|apply IH].
    apply split_on_covers. destruct new_separators; [exact I | exact IH].
Qed.

Lemma merge_loop_fits (splits current_doc : list str) (total : nat) :
  total + List.length (List.concat splits) <= chunk_size ->
  Splitter.merge_loop chunk_size chunk_overlap [] splits current_doc total
  = Splitter.append_doc (Splitter._join_docs (current_doc ++ splits) []) [].
Proof.
  revert current_doc total. induction splits as [|d rest IH]; intros current_doc total H.
  - now rewrite app_nil_r.
  - simpl in H. rewrite length_app in H.
    cbn [Splitter.merge_loop]. cbv zeta.
    replace (chunk_size <? total + List.length d +
               (if 0 <? List.length current_doc then List.length (@nil ascii) else 0))
      with false.
    + cbn [andb]. rewrite IH.
      * now rewrite <- app_assoc.
      * destruct (1 <? _); simpl; lia.
    + symmetry. apply Nat.ltb_ge. destruct (0 <? _); simpl; lia.
Qed.

Lemma each_split_short (deeper : option (str -> list str)) (splits good : list str) :
  (forall s, In s splits -> List.length s < chunk_size) ->
  Splitter.each_split chunk_size chunk_overlap deeper splits good
  = Splitter.flush chunk_size chunk_overlap (good ++ splits).
Proof.
  revert good. induction splits as [|s rest IH]; intros good H.
  - now rewrite app_nil_r.
  - simpl. rewrite (proj2 (Nat.ltb_lt _ _) (H s (or_introl eq_refl))).
    rewrite IH; [now rewrite <- app_assoc | intros s' Hs; apply H; now right].
Qed.

Lemma split_on_short (separator : str) (deeper : option (str -> list str)) (text : str) :
  List.length text < chunk_size ->
  Splitter.split_on chunk_size chunk_overlap separator deeper text = whole_text_chunk text.
Proof.
  intros H. unfold Splitter.split_on.
  pose proof (regex_split_concat text separator) as C.
  rewrite each_split_short.
  - simpl app. unfold whole_text_chunk.
    destruct (Splitter._split_text_with_regex text separator) as [|p ps] eqn:E.
    + simpl in C. subst text. reflexivity.
    + unfold Splitter.flush, Splitter._merge_splits. rewrite merge_loop_fits.
      * simpl app. unfold Splitter._join_docs. rewrite join_empty_sep, C.
        now destruct (Py.strip text).
      * rewrite C. simpl. lia.
  - intros s Hs. apply concat_piece_length in Hs. rewrite C in Hs. lia.
Qed.

Lemma _split_text_short (last : str) (seps : list str) (text : str) :
  List.length text < chunk_size ->
  Splitter._split_text chunk_size chunk_overlap last seps text = whole_text_chunk text.
Proof.
  intros H. induction seps as [|s new_separators IH]; simpl.
  - now apply split_on_short.
  - destruct (Py.str_eqb s []); [now apply split_on_short|].
    destruct (Py.contains s text); [now apply split_on_short | exact IH].
Qed.

End SplitCovers.

(* ================================================================= *)
(** ** When a lookup is absent *)

Lemma lookup_absent_iff (encode : str -> list Q) (next_iter : list str -> str)
    (dk : Disk) (p : StoryProcessor) (character_name : str) :
  fst (get_character_info encode next_iter dk p character_name) = Return None <->
  exists p',
    load_existing dk p = (Return tt, p') /\
    (exists rc, relevant_chunks encode p' character_name = Return rc) /\
    forall src, In src (metadatas p') ->
      exists content,
        source_files dk src = Some content /\
        Py.contains (Py.lower character_name) (Py.lower content) = false.
Proof.
  unfold get_character_info. destruct (load_existing dk p) as [[[]|e] p1]; cbn [fst].
  - rewrite assemble_None, scan_sources_empty. split.
    + intros [R S]. exists p1. auto.
    + intros [p' [L [R S]]]. injection L as <-. auto.
  - split; [discriminate | intros [p' [L _]]; discriminate].
Qed.

(** Absence is reached: with a resident index of the model's dimension and
    a text for each of its ids, a name that no referenced source holds is
    looked up as absent. *)
Lemma lookup_absent_when_no_source_matches (encode : str -> list Q)
    (next_iter : list str -> str) (dk : Disk) (p p' : StoryProcessor)
    (idx : Faiss.IndexFlatL2) (character_name : str) :
  load_existing dk p = (Return tt, p') ->
  index p' = Some idx ->
  (forall query, List.length (encode query) = Faiss.d idx) ->
  texts p' <> [] ->
  Faiss.ntotal idx <= List.length (texts p') ->
  (forall src, In src (metadatas p') ->
     exists content,
       source_files dk src = Some content /\
       Py.contains (Py.lower character_name) (Py.lower content) = false) ->
  fst (get_character_info encode next_iter dk p character_name) = Return None.
Proof.
  intros L Hi Hd Ht Hn Hs. apply lookup_absent_iff. exists p'.
  split; [assumption|]. split; [|assumption].
  now apply (relevant_chunks_returns encode p' idx).
Qed.

Lemma first_added_In (s : list str) : s <> [] -> In (first_added s) s.
Proof. destruct s; [contradiction | intros _; now left]. Qed.

(* ================================================================= *)
(** ** Lookup: when it raises *)

Lemma scan_sources_unreadable (dk : Disk) (character_name : str) (ms acc : list str) :
  (exists src, In src ms /\ source_files dk src = None) ->
  scan_sources dk character_name ms acc = Raise OSError.
Proof.
  intros [src [Hs Hn]].
  destruct (scan_sources dk character_name ms acc) as [ss|e] eqn:S.
  - apply scan_sources_Return in S. destruct S as [R _].
    destruct (R src Hs) as [content Hc]. congruence.
  - apply scan_sources_Raise in S. destruct S as [-> _]. reflexivity.
Qed.



Lemma lookup_unreadable_source (encode : str -> list Q) (next_iter : list str -> str)
    (dk : Disk) (p p' : StoryProcessor) (character_name : str) :
  load_existing dk p = (Return tt, p') ->
  (exists rc, relevant_chunks encode p' character_name = Return rc) ->
  (exists src, In src (metadatas p') /\ source_files dk src = None) ->
  fst (get_character_info encode next_iter dk p character_name) = Raise OSError.
Proof.
  intros L [rc R] U. unfold get_character_info. rewrite L. cbn [fst]. unfold assemble.
  rewrite R. cbn [bind]. rewrite (scan_sources_unreadable _ _ _ _ U). reflexivity.
Qed.

(* ================================================================= *)
(** ** The fields of a record: sentences, trimming, the type *)

Lemma split_pieces (c : ascii) (s : str) : pieces c s (Py.split [c] s).
Proof.
  induction s as [|a t IH].
  - apply pieces_last. intros [].
  - rewrite split_char_cons. destruct (Ascii.eqb c a) eqn:E.
    + apply Ascii.eqb_eq in E. subst a.
      apply (pieces_more c [] t); [intros [] | exact IH].
    + apply Ascii.eqb_neq in E.
      destruct (Py.split [c] t) as [|piece others] eqn:S; [inversion IH|].
      inversion IH as [s0 Hn Hs Hl | s0 rest others0 Hn Hp Hs Hl]; subst.
      * apply pieces_last. intros [H | H]; [congruence | contradiction].
      * apply (pieces_more c (a :: piece) rest others); [|assumption].
        intros [H | H]; [congruence | contradiction].
Qed.

Lemma pieces_head (sep : ascii) (a a' b b' : str) :
  ~ In sep a -> ~ In sep a' -> a ++ sep :: b = a' ++ sep :: b' -> a = a' /\ b = b'.
Proof.
  revert a'. induction a as [|x a IH]; intros [|x' a'] Ha Ha' E; simpl in E.
  - injection E as <-. auto.
  - injection E as <- _. exfalso. apply Ha'. now left.
  - injection E as -> _. exfalso. apply Ha. now left.
  - injection E as <- E. destruct (IH a') as [<- <-]; auto.
    + intros H. apply Ha. now right.
    + intros H. apply Ha'. now right.
Qed.

(** A text has one list of pieces. *)
Lemma pieces_unique (sep : ascii) (s : str) (l l' : list str) :
  pieces sep s l -> pieces sep s l' -> l = l'.
Proof.
  intros H. revert l'. induction H as [s Hn | s rest others Hn Hp IH]; intros l' H'.
  - inversion H' as [s0 Hn0 Hs Hl | s0 rest0 others0 Hn0 Hp0 Hs Hl]; [reflexivity|].
    exfalso. apply Hn. rewrite <- Hs. apply in_or_app. right. now left.
  - inversion H' as [s0 Hn0 Hs Hl | s0 rest0 others0 Hn0 Hp0 Hs Hl].
    + exfalso. apply Hn0. apply in_or_app. right. now left.
    + destruct (pieces_head sep s0 s rest0 rest Hn0 Hn Hs) as [-> ->].
      f_equal. now apply IH.
Qed.

Lemma filter_selected {A : Type} (P : A -> Prop) (f : A -> bool) (l : list A) :
  (forall x, f x = true <-> P x) -> selected P l (filter f l).
Proof.
  intros H. induction l as [|a l IH]; simpl; [constructor|].
  destruct (f a) eqn:E.
  - apply selected_keep; [now apply H | exact IH].
  - apply selected_skip; [|exact IH]. intros Pa. apply H in Pa. congruence.
Qed.

(** A list has one selection. *)
Lemma selected_unique {A : Type} (P : A -> Prop) (l kept kept' : list A) :
  selected P l kept -> selected P l kept' -> kept = kept'.
Proof.
  intros H. revert kept'. induction H as [|a l kept Pa H IH|a l kept Pa H IH]; intros kept' H'.
  - now inversion H'.
  - inversion H' as [|a0 l0 k0 Pa0 H0|a0 l0 k0 Pa0 H0]; subst; [|contradiction].
    f_equal. now apply IH.
  - inversion H' as [|a0 l0 k0 Pa0 H0|a0 l0 k0 Pa0 H0]; subst; [contradiction|].
    now apply IH.
Qed.

Lemma Forall2_map_left {A B : Type} (R : B -> A -> Prop) (f : A -> B) (l : list A) :
  (forall x, R (f x) x) -> Forall2 R (map f l) l.
Proof. intros H. induction l as [|a l IH]; simpl; constructor; auto. Qed.

Lemma lstrip_spec (s : str) :
  exists ws,
    s = ws ++ Py.lstrip s /\
    whitespace_only ws /\
    forall c rest, Py.lstrip s = c :: rest -> Py.isspace c = false.
Proof.
  induction s as [|a t [ws [E [W H]]]].
  - exists []. split; [reflexivity|]. split; [intros c [] | discriminate].
  - simpl. destruct (Py.isspace a) eqn:Ha.
    + exists (a :: ws). split; [simpl; now f_equal|]. split; [|exact H].
      intros c [<- | Hc]; [exact Ha | now apply W].
    + exists []. split; [reflexivity|]. split; [intros c []|].
      intros c rest Hc. injection Hc as <- _. exact Ha.
Qed.

Lemma rstrip_spec (s : str) :
  exists ws,
    s = Py.rstrip s ++ ws /\
    whitespace_only ws /\
    forall front c, Py.rstrip s = front ++ [c] -> Py.isspace c = false.
Proof.
  unfold Py.rstrip. destruct (lstrip_spec (rev s)) as [ws [E [W H]]].
  exists (rev ws). split; [|split].
  - rewrite <- rev_app_distr, <- E. now rewrite rev_involutive.
  - intros c Hc. apply W. apply (proj2 (in_rev ws c)). exact Hc.
  - intros front c Hc. apply (H c (rev front)).
    apply (f_equal (@rev ascii)) in Hc. rewrite rev_involutive, rev_app_distr in Hc.
    exact Hc.
Qed.

(** [s.strip()] is [s] without the whitespace at its two ends. *)
Lemma strip_trimmed (s : str) : trimmed_from s (Py.strip s).
Proof.
  unfold Py.strip.
  destruct (lstrip_spec s) as [before [E1 [W1 H1]]].
  destruct (rstrip_spec (Py.lstrip s)) as [after [E2 [W2 H2]]].
  exists before, after.
  split; [rewrite <- E2; exact E1|]. split; [exact W1|]. split; [exact W2|].
  split; [|exact H2].
  intros c rest Hc. apply (H1 c (rest ++ after)). rewrite E2, Hc. reflexivity.
Qed.

Lemma trim_front_unique (b b' x x' : str) :
  whitespace_only b -> whitespace_only b' ->
  (forall c rest, x = c :: rest -> Py.isspace c = false) ->
  (forall c rest, x' = c :: rest -> Py.isspace c = false) ->
  b ++ x = b' ++ x' -> b = b' /\ x = x'.
Proof.
  revert b'. induction b as [|c b IH]; intros [|c' b'] W W' S S' E; simpl in E.
  - auto.
  - exfalso. pose proof (S c' (b' ++ x') E) as H.
    rewrite (W' c') in H by now left. discriminate.
  - exfalso. pose proof (S' c (b ++ x) (eq_sym E)) as H.
    rewrite (W c) in H by now left. discriminate.
  - injection E as <- E. destruct (IH b') as [<- <-]; auto.
    + intros a Ha. apply W. now right.
    + intros a Ha. apply W'. now right.
Qed.

(** A text has one trimmed form, that of [strip]. *)
Lemma trimmed_unique (s t t' : str) : trimmed_from s t -> trimmed_from s t' -> t = t'.
Proof.
  intros [b [a [E [Wb [Wa [Hh Hl]]]]]] [b' [a' [E' [Wb' [Wa' [Hh' Hl']]]]]].
  destruct t as [|c r], t' as [|c' r']; [reflexivity | | |].
  - exfalso. pose proof (Hh' c' r' eq_refl) as H.
    assert (I : In c' s) by (rewrite E'; apply in_or_app; right; now left).
    rewrite E in I. simpl in I. apply in_app_or in I.
    destruct I as [I | I]; [rewrite (Wb c' I) in H | rewrite (Wa c' I) in H]; discriminate.
  - exfalso. pose proof (Hh c r eq_refl) as H.
    assert (I : In c s) by (rewrite E; apply in_or_app; right; now left).
    rewrite E' in I. simpl in I. apply in_app_or in I.
    destruct I as [I | I]; [rewrite (Wb' c I) in H | rewrite (Wa' c I) in H]; discriminate.
  - rewrite E in E'.
    destruct (trim_front_unique b b' ((c :: r) ++ a) ((c' :: r') ++ a') Wb Wb') as [_ X]; auto.
    + intros x rest Hx. injection Hx as <- _. now apply (Hh c r).
    + intros x rest Hx. injection Hx as <- _. now apply (Hh' c' r').
    + apply (f_equal (@rev ascii)) in X. rewrite !rev_app_distr in X.
      destruct (trim_front_unique (rev a) (rev a') (rev (c :: r)) (rev (c' :: r'))) as [_ Y]; auto.
      * intros x Hx. apply Wa. now apply in_rev.
      * intros x Hx. apply Wa'. now apply in_rev.
      * intros x rest Hx. apply (Hl (rev rest) x).
        apply (f_equal (@rev ascii)) in Hx. rewrite rev_involutive in Hx. exact Hx.
      * intros x rest Hx. apply (Hl' (rev rest) x).
        apply (f_equal (@rev ascii)) in Hx. rewrite rev_involutive in Hx. exact Hx.
      * apply (f_equal (@rev ascii)) in Y. now rewrite !rev_involutive in Y.
Qed.

Lemma whitespace_only_app (a b : str) :
  whitespace_only (a ++ b) <-> whitespace_only a /\ whitespace_only b.
Proof.
  unfold whitespace_only. split.
  - intros H. split; intros c Hc; apply H, in_or_app; auto.
  - intros [Ha Hb] c Hc. apply in_app_or in Hc. destruct Hc; auto.
Qed.


(** A text that holds "antagonist" and "main" and not
    "protagonist" is typed as an antagonist. *)
Example antagonist_before_main :
  ~ occurs "protagonist" (Py.lower "The Antagonist is the main villain") /\
  occurs "antagonist" (Py.lower "The Antagonist is the main villain") /\
  occurs "main" (Py.lower "The Antagonist is the main villain") /\
  character_type_of "The Antagonist is the main villain" = "Antagonist".
Proof.
  split; [apply not_contains_occurs; reflexivity|].
  split; [apply contains_occurs; reflexivity|].
  split; [apply contains_occurs; reflexivity | reflexivity].
Qed.

(* ================================================================= *)
(** ** The scenarios, evaluated *)

Example lower_latin1_ex :
  Py.lower [ascii_of_nat 201; "M"; "I"; "L"; "E"]%char
  = [ascii_of_nat 233; "m"; "i"; "l"; "e"]%char.
Proof. reflexivity. Qed.

Example strip_no_break_space_ex :
  Py.strip ([ascii_of_nat 160] ++ "Alice" ++ [ascii_of_nat 133]) = "Alice".
Proof. reflexivity. Qed.

Example lower_ex : Py.lower "The MAIN Antagonist." = "the main antagonist.".
Proof. reflexivity. Qed.

Example split_ex :
  Py.split "." "Alice is here. Bob too." = [ "Alice is here" : str; " Bob too" : str; [] : str ].
Proof. reflexivity. Qed.

Example split_empty_ex : Py.split "." [] = [ [] ].
Proof. reflexivity. Qed.

Example strip_ex : Py.strip "  Alice and Bob are friends " = "Alice and Bob are friends".
Proof. reflexivity. Qed.

Example replace_ex : Py.replace ".txt" [] "my.txt.notes.txt" = "my.notes".
Proof. reflexivity. Qed.

Example getitem_neg_ex : Py.getitem [10; 20; 30]%Z (-1) = Return 30%Z.
Proof. reflexivity. Qed.

Example split_text_overlap_ex :
  Splitter.split_text 10 3 "hello world this is a test of the splitter"
  = [ "hello" : str; "world" : str; "this is a" : str; "a test of" : str;
      "of the" : str; "splitter" : str ].
Proof. reflexivity. Qed.

Example split_text_hard_cut_ex :
  Splitter.split_text 10 3 "abcdefghijklmnopqrstuvwxyz"
  = [ "abcdefghij" : str; "hijklmnopq" : str; "opqrstuvwx" : str; "vwxyz" : str ].
Proof. reflexivity. Qed.

Example hero_lookup :
  match fst (get_character_info toy_encode first_added hero_disk init "Alice") with
  | Return (Some r) =>
      storyTitle r = "hero"
      /\ characterType r = "Protagonist"
      /\ map rel_relation (relations r)
         = [ "Alice is the protagonist of the story" : str;
             "Alice and Bob are friends" : str;
             "Alice is the protagonist of the story" : str ]
  | _ => False
  end.
Proof. vm_compute. repeat split. Qed.

Example zara_lookup :
  fst (get_character_info toy_encode first_added hero_disk init "Zara") = Return None.
Proof. reflexivity. Qed.

Example lookup_without_index :
  fst (get_character_info toy_encode first_added (empty_disk no_files) init "Alice")
  = Raise ValueError.
Proof. reflexivity. Qed.

(* ================================================================= *)
(** ** Claims *)

(** C1. With three chunks indexed, retrieval with [k = 5] hands back five
    texts, not three: the index pads its labels with [-1] up to [k], and
    [texts[-1]] is the last chunk, which fills the two missing places. *)
Theorem retrieve_five_from_three_chunks :
  texts three_chunks = [ "a" : str; "bbb" : str; "cc" : str ] /\
  option_map Faiss.ntotal (index three_chunks) = Some 3 /\
  find_relevant_chunks toy_encode three_chunks "q" 5
  = Return [ "a" : str; "cc" : str; "bbb" : str; "cc" : str; "cc" : str ].
Proof. repeat split. Qed.

(** C2 as stated fails: a persisted pair of one vector and two texts is
    loaded and the lookup goes on to assemble a record. *)
Lemma misaligned_pair_is_accepted :
  option_map Faiss.ntotal (stored (index_file misaligned_disk)) = Some 1 /\
  option_map (fun data => List.length (fst data)) (stored (store_file misaligned_disk)) = Some 2 /\
  title_of (fst (get_character_info toy_encode first_added misaligned_disk init "Alice"))
  = Some ("hero" : str).
Proof. repeat split. Qed.

(** C2, amended. When the index is not resident and both files hold a
    value, the lazy load installs the index and the stored texts and
    metadata as they are; the two counts are not compared, so the load
    succeeds whether or not they agree. *)
Theorem load_existing_installs_pair (dk : Disk) (p : StoryProcessor)
    (idx : Faiss.IndexFlatL2) (ts ms : list str) :
  index p = None ->
  index_file dk = Stored idx ->
  store_file dk = Stored (ts, ms) ->
  load_existing dk p = (Return tt, {| index := Some idx; texts := ts; metadatas := ms |}).
Proof.
  intros Hp Hi Hs. unfold load_existing. rewrite Hp, Hi, Hs. reflexivity.
Qed.

Lemma load_existing_installs_pair_witness :
  List.length (texts (snd (load_existing misaligned_disk init))) = 2 /\
  option_map Faiss.ntotal (index (snd (load_existing misaligned_disk init))) = Some 1.
Proof.
  rewrite (load_existing_installs_pair misaligned_disk init
             (Faiss.add (Faiss.new 1) [toy_encode hero_text])
             [hero_text; "An unrelated chunk." : str]
             [ "hero.txt" : str; "hero.txt" : str ]
             eq_refl eq_refl eq_refl).
  split; reflexivity.
Defined.



(** C4. The relations of every record a lookup returns come from the
    relations aspect text, the five chunks retrieved for "relationships of
    <name>" joined by spaces: the text is cut at its periods, the sentences
    in which the character name occurs are kept in their order, and the
    first three of them give the relations, one each and in that order,
    with the name "Unknown" and for relation the sentence without the
    whitespace at its two ends; with more than three such sentences there
    are exactly three relations. *)
Theorem relations_of_record (encode : str -> list Q) (next_iter : list str -> str)
    (dk : Disk) (p p' : StoryProcessor) (character_name : str) (r : CharacterInfo) :
  get_character_info encode next_iter dk p character_name = (Return (Some r), p') ->
  exists (relations_text : str) (sentences matching : list str),
    aspect encode p' ("relationships of " ++ character_name) = Return relations_text /\
    pieces "." relations_text sentences /\
    selected (occurs character_name) sentences matching /\
    Forall2 (fun relation sentence =>
               rel_name relation = "Unknown" /\
               trimmed_from sentence (rel_relation relation))
            (relations r) (firstn 3 matching) /\
    (3 < List.length matching -> List.length (relations r) = 3).
Proof.
  intros H. apply get_character_info_load in H. destruct H as [_ H].
  apply assemble_Some in H. destruct H as [rc [ss [Hrc [_ [_ ->]]]]].
  apply relevant_chunks_inv in Hrc. destruct Hrc as [_ [_ [Hrel _]]].
  exists (rc_relations rc), (Py.split "." (rc_relations rc)),
         (filter (fun sentence => Py.contains character_name sentence)
                 (Py.split "." (rc_relations rc))).
  split; [exact Hrel|].
  split; [apply (split_pieces "."%char)|].
  split; [apply filter_selected; intros sentence; apply contains_occurs|].
  apply aspect_not_empty in Hrel. cbn [relations].
  unfold relation_sentences. destruct (rc_relations rc) as [|c t] eqn:E; [contradiction|].
  rewrite firstn_map. split.
  - apply Forall2_map_left. intros sentence. cbn [rel_name rel_relation].
    split; [reflexivity | apply strip_trimmed].
  - intros L. rewrite length_map, length_firstn. lia.
Qed.

Lemma relations_of_record_witness :
  exists r p',
    get_character_info toy_encode first_added hero_disk init "Alice" = (Return (Some r), p') /\
    relations r
    = [ {| rel_name := "Unknown"; rel_relation := "Alice is the protagonist of the story" |};
        {| rel_name := "Unknown"; rel_relation := "Alice and Bob are friends" |};
        {| rel_name := "Unknown"; rel_relation := "Alice is the protagonist of the story" |} ] /\
    exists (relations_text : str) (sentences matching : list str),
      aspect toy_encode p' ("relationships of " ++ "Alice") = Return relations_text /\
      pieces "." relations_text sentences /\
      selected (occurs "Alice") sentences matching /\
      Forall2 (fun relation sentence =>
                 rel_name relation = "Unknown" /\
                 trimmed_from sentence (rel_relation relation))
              (relations r) (firstn 3 matching) /\
      (3 < List.length matching -> List.length (relations r) = 3).
Proof.
  eexists. eexists. split; [vm_compute; reflexivity|]. split; [vm_compute; reflexivity|].
  apply (relations_of_record toy_encode first_added hero_disk init).
  vm_compute. reflexivity.
Defined.

(** C5. What [process_stories] persists is what the lazy load of a fresh
    processor installs: the same index, texts and metadata, hence the same
    [(distance, id)] sequences from [search] and the same chunks from
    retrieval for every query and [k]. *)
Theorem persisted_pair_reloads (encode : str -> list Q) (dk dk1 : Disk)
    (p p1 : StoryProcessor) (stories : list Document) :
  process_stories encode dk p stories = (Return tt, p1, dk1) ->
  load_existing dk1 init = (Return tt, p1) /\
  (forall idx0 idx1,
      index p1 = Some idx0 ->
      index (snd (load_existing dk1 init)) = Some idx1 ->
      forall x k, Faiss.search idx1 x k = Faiss.search idx0 x k) /\
  (forall query k,
      find_relevant_chunks encode (snd (load_existing dk1 init)) query k
      = find_relevant_chunks encode p1 query k).
Proof.
  unfold process_stories.
  destruct (map encode (fst (extend_stories stories (texts p) (metadatas p)))) as [|row rows];
    [discriminate|].
  intros H. injection H as <- <-.
  split; [|split].
  - unfold load_existing. cbn. reflexivity.
  - cbn. intros idx0 idx1 H0 H1. congruence.
  - reflexivity.
Qed.

Lemma persisted_pair_reloads_witness :
  load_existing hero_disk init = (Return tt, snd (fst hero_built)).
Proof.
  apply (persisted_pair_reloads toy_encode
           (empty_disk (one_file "hero.txt" hero_text)) hero_disk init (snd (fst hero_built))
           [ {| page_content := hero_text; source := "hero.txt" |} ]).
  reflexivity.
Defined.

(** C6 as stated fails: the empty text is shorter than the chunk size and
    gives no chunk, and the leading space of [" a"] is in no chunk. *)
Lemma chunker_drops_whitespace :
  List.length ([] : str) < chunk_size /\
  text_splitter_split_text [] = [] /\
  text_splitter_split_text " a" = [ "a" : str ] /\
  ~ covered (text_splitter_split_text " a") [] " " "a".
Proof.
  split; [unfold chunk_size; simpl; lia|]. split; [reflexivity|]. split; [reflexivity|].
  change (text_splitter_split_text " a") with [ "a" : str ].
  intros [chunk [before [after [[<- | []] [E _]]]]].
  destruct before as [|b [|b' before]]; discriminate.
Qed.

(** C6, amended. Every occurrence in the text of a character that is not
    whitespace lies in at least one chunk, the chunk being a window of the
    text around it; a text shorter than [chunk_size] gives exactly one
    chunk, the text stripped of leading and trailing whitespace, unless
    nothing is left of it after stripping, when it gives none. *)
Theorem chunks_cover_text (text : str) :
  covers text (text_splitter_split_text text) /\
  (List.length text < chunk_size ->
   text_splitter_split_text text
   = match Py.strip text with
     | [] => []
     | stripped => [stripped]
     end).
Proof.
  split.
  - apply _split_text_covers.
  - intros H. unfold text_splitter_split_text, Splitter.split_text.
    now rewrite _split_text_short.
Qed.

Lemma chunks_cover_text_witness :
  List.length hero_text < chunk_size /\
  text_splitter_split_text hero_text = [hero_text].
Proof.
  assert (L : List.length hero_text < chunk_size) by (vm_compute; lia).
  split; [exact L|].
  rewrite (proj2 (chunks_cover_text hero_text) L). reflexivity.
Defined.




(** C8 as stated fails: the story [hero.md] keeps its extension in the
    title. *)
Lemma story_title_keeps_md_extension :
  title_of (fst (get_character_info toy_encode first_added hero_md_disk init "Alice"))
  = Some ("hero.md" : str) /\
  title_of (fst (get_character_info toy_encode first_added hero_md_disk init "Alice"))
  <> Some ("hero" : str).
Proof. split; [reflexivity | discriminate]. Qed.

(** C8, amended. The story title of a record is the identifier of one
    source that matched the presence check with every ".txt" in it removed:
    a trailing ".txt" is stripped from an identifier that holds no other
    ([hero.txt] gives [hero]), and an identifier without ".txt" is the title
    unchanged, whatever its extension. *)
Theorem story_title_of_record (encode : str -> list Q) (next_iter : list str -> str)
    (dk : Disk) (p p' : StoryProcessor) (character_name : str) (r : CharacterInfo) :
  (forall s, s <> [] -> In (next_iter s) s) ->
  get_character_info encode next_iter dk p character_name = (Return (Some r), p') ->
  exists src,
    In src (metadatas p') /\
    matches dk character_name src /\
    storyTitle r = Py.replace ".txt" [] src /\
    (forall base, src = base ++ ".txt" -> ~ occurs ".txt" base -> storyTitle r = base) /\
    (~ occurs ".txt" src -> storyTitle r = src).
Proof.
  intros Hnext H. apply get_character_info_load in H. destruct H as [_ H].
  apply assemble_Some in H. destruct H as [rc [ss [_ [Hscan [Hne ->]]]]].
  exists (next_iter ss). cbn [storyTitle].
  apply scan_sources_Return in Hscan. destruct Hscan as [_ Hss].
  destruct (proj1 (Hss (next_iter ss)) (Hnext ss Hne)) as [[] | [Hin Hm]].
  split; [assumption|]. split; [assumption|]. split; [reflexivity|]. split.
  - intros base -> Hb. now apply replace_txt_suffix.
  - intros Hs. now apply replace_absent.
Qed.

Lemma story_title_of_record_witness :
  exists r p',
    get_character_info toy_encode first_added hero_disk init "Alice" = (Return (Some r), p') /\
    storyTitle r = "hero".
Proof.
  eexists. eexists. split; [vm_compute; reflexivity|].
  destruct (story_title_of_record toy_encode first_added hero_disk init _ "Alice" _
              first_added_In eq_refl) as [src [Hin [_ [_ [Hsuffix _]]]]].
  destruct Hin as [<- | []].
  apply (Hsuffix "hero"); [reflexivity|].
  apply not_contains_occurs. reflexivity.
Defined.

(** C9. Retrieval on a processor whose index is [None] raises (the
    attribute error of [None.search]) and gives no list of chunks, empty or
    not; the method reads nothing from the disk, so nothing is loaded on
    this path. *)
Theorem retrieve_without_index_raises (encode : str -> list Q) (p : StoryProcessor)
    (query : str) (k : nat) :
  index p = None ->
  find_relevant_chunks encode p query k = Raise AttributeError /\
  forall chunks, find_relevant_chunks encode p query k <> Return chunks.
Proof.
  intros H. unfold find_relevant_chunks. rewrite H. split; [reflexivity | discriminate].
Qed.

Lemma retrieve_without_index_raises_witness :
  index init = None /\
  find_relevant_chunks toy_encode init "Alice" 5 = Raise AttributeError.
Proof.
  split; [reflexivity|].
  apply (retrieve_without_index_raises toy_encode init "Alice" 5). reflexivity.
Defined.

(** C10 as stated fails: with [hero.txt] readable and [gone.txt] not, the
    lookup of the empty name raises and assembles nothing. *)
Lemma empty_name_lookup_can_raise :
  source_files (empty_disk (one_file "hero.txt" hero_text)) "hero.txt" = Some hero_text /\
  In ("hero.txt" : str) (metadatas partly_unreadable) /\
  fst (get_character_info toy_encode first_added
         (empty_disk (one_file "hero.txt" hero_text)) partly_unreadable [])
  = Raise OSError.
Proof. split; [reflexivity|]. split; [now left | reflexivity]. Qed.

(** C10, amended. The empty name is found in every text, so once the store
    is resident and references at least one source the lookup of the empty
    name is never absent; when the retrievals succeed it assembles a record
    if every referenced source is readable, and raises the error of [open]
    if one of them is not. *)
Theorem empty_name_never_absent (encode : str -> list Q) (next_iter : list str -> str)
    (dk : Disk) (p p' : StoryProcessor) :
  load_existing dk p = (Return tt, p') ->
  metadatas p' <> [] ->
  (forall content, Py.contains (Py.lower []) (Py.lower content) = true) /\
  fst (get_character_info encode next_iter dk p []) <> Return None /\
  ((exists rc, relevant_chunks encode p' [] = Return rc) ->
   (forall src, In src (metadatas p') -> readable dk src) ->
   exists r, fst (get_character_info encode next_iter dk p []) = Return (Some r)) /\
  ((exists rc, relevant_chunks encode p' [] = Return rc) ->
   (exists src, In src (metadatas p') /\ source_files dk src = None) ->
   fst (get_character_info encode next_iter dk p []) = Raise OSError).
Proof.
  intros L N.
  assert (E : forall content, Py.contains (Py.lower []) (Py.lower content) = true).
  { intros content. apply contains_empty. }
  assert (A : fst (get_character_info encode next_iter dk p []) <> Return None).
  { intros H. apply (proj1 (lookup_absent_iff encode next_iter dk p [])) in H.
    destruct H as [p1 [L1 [_ S]]]. rewrite L in L1. injection L1 as <-.
    destruct (metadatas p') as [|m ms]; [contradiction|].
    destruct (S m (or_introl eq_refl)) as [content [_ C]]. rewrite E in C. discriminate. }
  split; [exact E|]. split; [exact A|]. split.
  - intros [rc R] Hread.
    destruct (scan_sources_returns dk [] (metadatas p') [] Hread) as [ss S].
    revert A. unfold get_character_info. rewrite L. cbn [fst]. unfold assemble.
    rewrite R, S. cbn [bind]. destruct ss; [intros A; now contradiction A|].
    intros _. now eexists.
  - intros R U. exact (lookup_unreadable_source encode next_iter dk p p' [] L R U).
Qed.

Lemma empty_name_never_absent_witness :
  exists r, fst (get_character_info toy_encode first_added hero_disk init []) = Return (Some r).
Proof.
  destruct (empty_name_never_absent toy_encode first_added hero_disk init
              (snd (load_existing hero_disk init)) eq_refl) as [_ [_ [H _]]].
  - discriminate.
  - apply H.
    + eexists. vm_compute. reflexivity.
    + intros src [<- | []]. eexists. vm_compute. reflexivity.
Defined.

(* ================================================================= *)
(** ** More on [strip] *)

Lemma lstrip_idempotent (s : str) : Py.lstrip (Py.lstrip s) = Py.lstrip s.
Proof.
  induction s as [|c t IH]; [reflexivity|]. simpl.
  destruct (Py.isspace c) eqn:E; [exact IH | simpl; now rewrite E].
Qed.

Lemma rstrip_idempotent (s : str) : Py.rstrip (Py.rstrip s) = Py.rstrip s.
Proof. unfold Py.rstrip. now rewrite rev_involutive, lstrip_idempotent. Qed.

Lemma lstrip_head (s : str) (h : ascii) (t : str) :
  Py.lstrip s = h :: t -> Py.isspace h = false.
Proof.
  induction s as [|c s IH]; [discriminate|]. simpl.
  destruct (Py.isspace c) eqn:E; [exact IH|]. intros H. injection H as <- _. exact E.
Qed.

Lemma rstrip_keeps_head (h : ascii) (t : str) :
  Py.isspace h = false -> exists t', Py.rstrip (h :: t) = h :: t'.
Proof.
  intros H. destruct (rstrip_window [] h t H) as [y' [ws [E _]]]. now exists y'.
Qed.

Lemma strip_idempotent (s : str) : Py.strip (Py.strip s) = Py.strip s.
Proof.
  unfold Py.strip. destruct (Py.lstrip s) as [|h t] eqn:E; [reflexivity|].
  pose proof (lstrip_head s h t E) as Hh.
  destruct (rstrip_keeps_head h t Hh) as [t' R]. rewrite R.
  simpl Py.lstrip. rewrite Hh, <- R. apply rstrip_idempotent.
Qed.

Lemma strip_occurs (s : str) : occurs (Py.strip s) s.
Proof.
  unfold Py.strip. destruct (lstrip_suffix s) as [w1 H1].
  destruct (rstrip_prefix (Py.lstrip s)) as [w2 H2].
  exists w1, w2. rewrite <- H2. exact H1.
Qed.

(** A string that [strip] leaves as it is starts with a character that is
    not whitespace. *)
Lemma stripped_head (h : ascii) (t : str) : Py.strip (h :: t) = h :: t -> Py.isspace h = false.
Proof.
  unfold Py.strip. intros H. destruct (Py.isspace h) eqn:E; [|reflexivity]. exfalso.
  simpl Py.lstrip in H. rewrite E in H.
  pose proof (f_equal (@List.length ascii) H) as L. simpl in L.
  destruct (rstrip_prefix (Py.lstrip t)) as [w2 H2].
  destruct (lstrip_suffix t) as [w1 H1].
  pose proof (f_equal (@List.length ascii) H2) as L2.
  pose proof (f_equal (@List.length ascii) H1) as L1.
  rewrite length_app in L1, L2. lia.
Qed.

Lemma occurs_refl (s : str) : occurs s s.
Proof. exists [], []. now rewrite app_nil_r. Qed.

Lemma occurs_context (a b x y : str) : occurs a b -> occurs a (x ++ b ++ y).
Proof.
  intros [pre [post ->]]. exists (x ++ pre), (post ++ y).
  now rewrite <- !app_assoc.
Qed.

Lemma occurs_front (a b y : str) : occurs a b -> occurs a (b ++ y).
Proof. intros H. apply (occurs_context a b [] y H). Qed.

Lemma occurs_back (a b x : str) : occurs a b -> occurs a (x ++ b).
Proof.
  intros H. pose proof (occurs_context a b x [] H) as H'. now rewrite app_nil_r in H'.
Qed.

Lemma occurs_trans (a b c : str) : occurs a b -> occurs b c -> occurs a c.
Proof. intros H [pre [post ->]]. now apply occurs_context. Qed.

Lemma occurs_In (a b : str) (c : ascii) : occurs a b -> In c a -> In c b.
Proof.
  intros [pre [post ->]] H. apply in_or_app. right. apply in_or_app. now left.
Qed.

Lemma occurs_length (a b : str) : occurs a b -> List.length a <= List.length b.
Proof. intros [pre [post ->]]. rewrite !length_app. lia. Qed.

(* ================================================================= *)
(** ** The splitter: what a chunk is *)

Lemma chunk_of_context (size : nat) (text chunk x y : str) :
  chunk_of size text chunk -> chunk_of size (x ++ text ++ y) chunk.
Proof.
  intros [H1 [H2 [H3 H4]]]. repeat split; try assumption. now apply occurs_context.
Qed.

Lemma chunk_of_front (size : nat) (text chunk y : str) :
  chunk_of size text chunk -> chunk_of size (text ++ y) chunk.
Proof. intros H. apply (chunk_of_context size text chunk [] y H). Qed.

Lemma chunk_of_back (size : nat) (text chunk x : str) :
  chunk_of size text chunk -> chunk_of size (x ++ text) chunk.
Proof.
  intros H. pose proof (chunk_of_context size text chunk x [] H) as H'.
  now rewrite app_nil_r in H'.
Qed.

Lemma join_docs_chunk (size : nat) (docs : list str) (doc : str) :
  List.length (List.concat docs) <= size ->
  In doc (Splitter.append_doc (Splitter._join_docs docs []) []) ->
  chunk_of size (List.concat docs) doc.
Proof.
  intros L. unfold Splitter._join_docs. rewrite join_empty_sep.
  destruct (Py.strip (List.concat docs)) as [|h t] eqn:E; [intros []|].
  intros [<- | []]. rewrite <- E. split; [rewrite E; discriminate|].
  split; [apply strip_idempotent|]. split; [apply strip_occurs|].
  pose proof (strip_length (List.concat docs)). lia.
Qed.

Section MergeChunks.

Variables chunk_size chunk_overlap : nat.

Lemma pop_front_total (_len : nat) (current_doc : list str) (total : nat) :
  total = List.length (List.concat current_doc) ->
  let popped := Splitter.pop_front chunk_size chunk_overlap [] _len current_doc total in
  snd popped = List.length (List.concat (fst popped)) /\
  (snd popped + _len <= chunk_size \/ snd popped = 0).
Proof.
  revert total. induction current_doc as [|first others IH]; intros total H.
  - simpl in H. subst total. simpl. destruct (_ && _); simpl; auto.
  - simpl Splitter.pop_front.
    destruct ((chunk_overlap <? total) || (chunk_size <? total + _len + 0) && (0 <? total))
      eqn:C.
    + apply IH. simpl in H. rewrite length_app in H.
      destruct (1 <? S (List.length others)); lia.
    + simpl. split; [exact H|].
      apply orb_false_iff in C. destruct C as [_ C]. apply andb_false_iff in C.
      destruct C as [C | C]; apply Nat.ltb_ge in C; [left | right]; lia.
Qed.

Lemma merge_loop_cons (d : str) (rest current_doc : list str) (total : nat) :
  Splitter.merge_loop chunk_size chunk_overlap [] (d :: rest) current_doc total
  = if (chunk_size <? total + List.length d) && (0 <? List.length current_doc)
    then
      Splitter.append_doc (Splitter._join_docs current_doc [])
        (Splitter.merge_loop chunk_size chunk_overlap [] rest
           (fst (Splitter.pop_front chunk_size chunk_overlap [] (List.length d) current_doc total)
            ++ [d])
           (snd (Splitter.pop_front chunk_size chunk_overlap [] (List.length d) current_doc total)
            + List.length d))
    else
      Splitter.merge_loop chunk_size chunk_overlap [] rest (current_doc ++ [d])
        (total + List.length d).
Proof.
  cbn [Splitter.merge_loop]. cbv zeta. cbn [List.length].
  replace (total + List.length d + (if 0 <? List.length current_doc then 0 else 0))
    with (total + List.length d) by (destruct (0 <? _); lia).
  destruct (_ && _).
  - f_equal. f_equal. destruct (1 <? _); lia.
  - f_equal. destruct (1 <? _); lia.
Qed.

Lemma merge_loop_chunks (splits current_doc : list str) (total : nat) (doc : str) :
  total = List.length (List.concat current_doc) ->
  total <= chunk_size ->
  (forall d, In d splits -> List.length d <= chunk_size) ->
  In doc (Splitter.merge_loop chunk_size chunk_overlap [] splits current_doc total) ->
  chunk_of chunk_size (List.concat (current_doc ++ splits)) doc.
Proof.
  revert current_doc total. induction splits as [|d rest IH]; intros current_doc total Ht Hle Hs.
  - rewrite app_nil_r. apply join_docs_chunk. lia.
  - assert (Hd : List.length d <= chunk_size) by (apply Hs; now left).
    assert (Hrest : forall d', In d' rest -> List.length d' <= chunk_size)
      by (intros d' H'; apply Hs; now right).
    rewrite merge_loop_cons.
    destruct ((chunk_size <? total + List.length d) && (0 <? List.length current_doc)) eqn:C.
    + rewrite append_doc_app. intros H. apply in_app_or in H. destruct H as [H | H].
      * rewrite concat_app. apply chunk_of_front. apply join_docs_chunk; [lia | exact H].
      * destruct (pop_front_total (List.length d) current_doc total Ht) as [P1 P2].
        destruct (pop_front_suffix chunk_size chunk_overlap [] (List.length d) current_doc total)
          as [dropped Hdrop].
        set (kept := fst (Splitter.pop_front chunk_size chunk_overlap [] (List.length d)
                            current_doc total)) in *.
        set (t' := snd (Splitter.pop_front chunk_size chunk_overlap [] (List.length d)
                          current_doc total)) in *.
        apply IH in H; try assumption.
        -- rewrite Hdrop, <- app_assoc, concat_app. apply chunk_of_back.
           now rewrite <- app_assoc in H.
        -- rewrite concat_app, length_app. simpl. rewrite app_nil_r. lia.
        -- lia.
    + intros H. apply IH in H; try assumption.
      * now rewrite <- app_assoc in H.
      * rewrite concat_app, length_app. simpl. rewrite app_nil_r. lia.
      * apply andb_false_iff in C. destruct C as [C | C]; apply Nat.ltb_ge in C; [lia|].
        destruct current_doc; [simpl in Ht; lia | simpl in C; lia].
Qed.

End MergeChunks.

Section SplitChunks.

Variables chunk_size chunk_overlap : nat.

Lemma flush_chunks (good : list str) (chunk : str) :
  (forall g, In g good -> List.length g <= chunk_size) ->
  In chunk (Splitter.flush chunk_size chunk_overlap good) ->
  chunk_of chunk_size (List.concat good) chunk.
Proof.
  intros Hg. destruct good as [|g good]; [intros []|].
  unfold Splitter.flush, Splitter._merge_splits. intros H.
  apply (merge_loop_chunks chunk_size chunk_overlap (g :: good) [] 0 chunk) in H;
    [exact H | reflexivity | lia | exact Hg].
Qed.

Lemma each_split_chunks (deeper : option (str -> list str)) (splits good : list str)
    (chunk : str) :
  (deeper = None -> forall s, In s splits -> List.length s < chunk_size) ->
  (forall split_further, deeper = Some split_further ->
     forall s c, In c (split_further s) -> chunk_of chunk_size s c) ->
  (forall g, In g good -> List.length g <= chunk_size) ->
  In chunk (Splitter.each_split chunk_size chunk_overlap deeper splits good) ->
  chunk_of chunk_size (List.concat (good ++ splits)) chunk.
Proof.
  intros Hnone Hsome. revert good.
  induction splits as [|s rest IH]; intros good Hg.
  - rewrite app_nil_r. now apply flush_chunks.
  - assert (Hnone' : deeper = None -> forall s', In s' rest -> List.length s' < chunk_size)
      by (intros E s' H'; apply (Hnone E); now right).
    simpl. destruct (List.length s <? chunk_size) eqn:L.
    + apply Nat.ltb_lt in L. intros H. apply (IH Hnone') in H.
      * now rewrite <- app_assoc in H.
      * intros g Hin. apply in_app_or in Hin. destruct Hin as [Hin | [<- | []]]; [auto | lia].
    + apply Nat.ltb_ge in L. intros H.
      rewrite concat_app. simpl List.concat.
      apply in_app_or in H. destruct H as [H | H].
      * apply chunk_of_front. now apply flush_chunks.
      * apply chunk_of_back. apply in_app_or in H. destruct H as [H | H].
        -- apply chunk_of_front. destruct deeper as [split_further|].
           ++ now apply (Hsome split_further eq_refl).
           ++ exfalso. specialize (Hnone eq_refl s (or_introl eq_refl)). lia.
        -- apply chunk_of_back. apply (IH Hnone' []) in H; [exact H | intros g []].
Qed.

Lemma regex_split_characters (text s : str) :
  In s (Splitter._split_text_with_regex text []) -> List.length s = 1.
Proof.
  unfold Splitter._split_text_with_regex. intros H. apply filter_In in H.
  destruct H as [H _]. apply in_map_iff in H. destruct H as [c [<- _]]. reflexivity.
Qed.

Lemma split_on_chunks (separator : str) (deeper : option (str -> list str))
    (text chunk : str) :
  (deeper = None -> separator = [] /\ 1 < chunk_size) ->
  (forall split_further, deeper = Some split_further ->
     forall s c, In c (split_further s) -> chunk_of chunk_size s c) ->
  In chunk (Splitter.split_on chunk_size chunk_overlap separator deeper text) ->
  chunk_of chunk_size text chunk.
Proof.
  intros Hnone Hsome H. unfold Splitter.split_on in H.
  apply each_split_chunks in H.
  - simpl app in H. now rewrite regex_split_concat in H.
  - intros E s Hs. destruct (Hnone E) as [-> Hc].
    apply regex_split_characters in Hs. lia.
  - exact Hsome.
  - intros g [].
Qed.

(** With the empty separator last in the list and a chunk size above one,
    every chunk is a stripped, non-empty run of the text within the chunk
    size. *)
Lemma _split_text_chunks (last : str) (seps : list str) (text chunk : str) :
  1 < chunk_size ->
  (exists front, seps = front ++ [[]]) ->
  In chunk (Splitter._split_text chunk_size chunk_overlap last seps text) ->
  chunk_of chunk_size text chunk.
Proof.
  intros Hc. revert text chunk. induction seps as [|s new_separators IH]; intros text chunk Hs.
  - destruct Hs as [[|x front] E]; discriminate.
  - simpl. destruct (Py.str_eqb s []) eqn:E.
    + apply str_eqb_eq in E. subst s. apply split_on_chunks; [auto | discriminate].
    + assert (Hnew : exists front, new_separators = front ++ [[]]).
      { destruct Hs as [[|x front] Hf].
        - injection Hf as -> _. rewrite str_eqb_refl in E. discriminate.
        - injection Hf as _ ->. now exists front. }
      destruct (Py.contains s text); [|now apply IH].
      apply split_on_chunks.
      * destruct new_separators; [|discriminate].
        destruct Hnew as [[|x front] Hf]; [discriminate | destruct front; discriminate].
      * intros split_further Hf s' c Hin.
        destruct new_separators; [discriminate|]. injection Hf as <-.
        now apply IH.
Qed.

End SplitChunks.

Lemma split_text_chunks (text chunk : str) :
  In chunk (text_splitter_split_text text) -> chunk_of chunk_size text chunk.
Proof.
  unfold text_splitter_split_text, Splitter.split_text. apply _split_text_chunks.
  - unfold chunk_size. lia.
  - now exists [[Splitter.LF; Splitter.LF]; [Splitter.LF]; [" "%char]].
Qed.

Lemma split_text_covers (text : str) : covers text (text_splitter_split_text text).
Proof. apply _split_text_covers. Qed.

(** A text gives no chunk exactly when it holds nothing but whitespace. *)
Lemma split_text_nil_iff (text : str) :
  text_splitter_split_text text = [] <-> whitespace_only text.
Proof.
  split.
  - intros E c Hc. destruct (Py.isspace c) eqn:S; [reflexivity|]. exfalso.
    apply in_split in Hc. destruct Hc as [pre [post Ht]].
    destruct (split_text_covers text pre c post Ht S) as [chunk [_ [_ [Hin _]]]].
    rewrite E in Hin. exact Hin.
  - intros W. destruct (text_splitter_split_text text) as [|chunk chunks] eqn:E; [reflexivity|].
    exfalso. assert (Hin : In chunk (text_splitter_split_text text)) by (rewrite E; now left).
    apply split_text_chunks in Hin. destruct Hin as [Hne [Hs [Ho _]]].
    destruct chunk as [|h t]; [contradiction|].
    pose proof (stripped_head h t Hs) as Hh.
    rewrite (W h) in Hh; [discriminate|].
    apply (occurs_In (h :: t) text h Ho). now left.
Qed.

(* ================================================================= *)
(** ** Building the index *)

Lemma extend_stories_eq (stories : list Document) (ts ms : list str) :
  extend_stories stories ts ms = (ts ++ corpus_texts stories, ms ++ corpus_sources stories).
Proof.
  revert ts ms. induction stories as [|story rest IH]; intros ts ms; simpl.
  - now rewrite !app_nil_r.
  - rewrite IH. unfold story_chunks. now rewrite <- !app_assoc.
Qed.

Lemma corpus_lengths (stories : list Document) :
  List.length (corpus_texts stories) = List.length (corpus_sources stories).
Proof.
  induction stories as [|story rest IH]; [reflexivity|].
  unfold corpus_texts, corpus_sources in *. simpl. rewrite !length_app, length_map. lia.
Qed.

Lemma corpus_texts_app (s1 s2 : list Document) :
  corpus_texts (s1 ++ s2) = corpus_texts s1 ++ corpus_texts s2.
Proof. apply flat_map_app. Qed.

Lemma corpus_sources_app (s1 s2 : list Document) :
  corpus_sources (s1 ++ s2) = corpus_sources s1 ++ corpus_sources s2.
Proof. apply flat_map_app. Qed.

Lemma combine_same_length_app {A B} (a a' : list A) (b b' : list B) :
  List.length a = List.length b ->
  combine (a ++ a') (b ++ b') = combine a b ++ combine a' b'.
Proof.
  revert b. induction a as [|x a IH]; intros [|y b] H; try discriminate; [reflexivity|].
  simpl. f_equal. apply IH. now injection H.
Qed.

Lemma combine_constant {A B} (l : list A) (b : B) (x : A) (y : B) :
  In (x, y) (combine l (map (fun _ => b) l)) -> In x l /\ y = b.
Proof.
  induction l as [|a l IH]; [intros []|]. simpl.
  intros [H | H]; [injection H as <- <-; auto | destruct (IH H); auto].
Qed.

Lemma corpus_pairs (stories : list Document) (text src : str) :
  In (text, src) (combine (corpus_texts stories) (corpus_sources stories)) ->
  chunk_of_story stories text src.
Proof.
  induction stories as [|story rest IH]; [intros []|].
  unfold corpus_texts, corpus_sources. simpl.
  rewrite combine_same_length_app by now rewrite length_map.
  intros H. apply in_app_or in H. destruct H as [H | H].
  - apply combine_constant in H. destruct H as [H ->].
    exists story. split; [now left | split; [reflexivity | exact H]].
  - destruct (IH H) as [s [Hin [Hs Hc]]]. exists s. split; [now right | auto].
Qed.

Lemma corpus_texts_nil_iff (stories : list Document) :
  corpus_texts stories = [] <->
  forall story, In story stories -> whitespace_only (page_content story).
Proof.
  induction stories as [|story rest IH].
  - split; [intros _ s [] | reflexivity].
  - unfold corpus_texts in *. simpl. split.
    + intros H. apply app_eq_nil in H. destruct H as [H1 H2].
      intros s [<- | Hs]; [now apply split_text_nil_iff | now apply IH].
    + intros H.
      rewrite (proj2 IH) by (intros s Hs; apply H; now right).
      unfold story_chunks.
      rewrite (proj2 (split_text_nil_iff (page_content story))) by (apply H; now left).
      reflexivity.
Qed.

Lemma process_stories_eq (encode : str -> list Q) (dk : Disk) (p : StoryProcessor)
    (stories : list Document) :
  let ts := texts p ++ corpus_texts stories in
  let ms := metadatas p ++ corpus_sources stories in
  process_stories encode dk p stories
  = match ts with
    | [] => (Raise IndexError, {| index := index p; texts := ts; metadatas := ms |}, dk)
    | first :: _ =>
        let idx := Faiss.add (Faiss.new (List.length (encode first))) (map encode ts) in
        (Return tt,
         {| index := Some idx; texts := ts; metadatas := ms |},
         {| index_file := Stored idx;
            store_file := Stored (ts, ms);
            source_files := source_files dk |})
    end.
Proof.
  unfold process_stories. rewrite extend_stories_eq. cbn [fst snd].
  destruct (texts p ++ corpus_texts stories); reflexivity.
Qed.

(* ================================================================= *)
(** ** The flat index: the labels are distinct *)

Lemma enumerate_from_entry {A} (i j : Z) (a : A) (l : list A) :
  In (j, a) (Faiss.enumerate_from i l) <->
  (i <= j)%Z /\ nth_error l (Z.to_nat (j - i)) = Some a.
Proof.
  revert i. induction l as [|b t IH]; intros i; simpl.
  - split; [intros [] | intros [_ H]]. destruct (Z.to_nat (j - i)); discriminate.
  - rewrite IH. split.
    + intros [H | [H1 H2]].
      * injection H as -> ->. rewrite Z.sub_diag. split; [lia | reflexivity].
      * split; [lia|]. replace (Z.to_nat (j - i)) with (S (Z.to_nat (j - (i + 1)))) by lia.
        exact H2.
    + intros [H1 H2]. destruct (Z.eq_dec i j) as [-> | N].
      * left. rewrite Z.sub_diag in H2. simpl in H2. now injection H2 as ->.
      * right. split; [lia|].
        replace (Z.to_nat (j - i)) with (S (Z.to_nat (j - (i + 1)))) in H2 by lia.
        exact H2.
Qed.

Lemma enumerate_from_ids {A} (i : Z) (l : list A) :
  NoDup (map fst (Faiss.enumerate_from i l)).
Proof.
  revert i. induction l as [|b t IH]; intros i; simpl; constructor; [|apply IH].
  intros H. apply in_map_iff in H. destruct H as [[j a] [E H]]. simpl in E. subst j.
  apply enumerate_from_entry in H. lia.
Qed.

Lemma insert_ids (e : Q * Z) (l : list (Q * Z)) (z : Z) :
  In z (map snd (Faiss.insert e l)) <-> z = snd e \/ In z (map snd l).
Proof.
  rewrite !in_map_iff. split.
  - intros [y [<- H]]. apply insert_In in H. destruct H as [-> | H]; [now left|].
    right. now exists y.
  - intros [-> | [y [<- H]]].
    + exists e. split; [reflexivity|]. apply insert_In. now left.
    + exists y. split; [reflexivity|]. apply insert_In. now right.
Qed.

Lemma insert_NoDup (e : Q * Z) (l : list (Q * Z)) :
  ~ In (snd e) (map snd l) -> NoDup (map snd l) -> NoDup (map snd (Faiss.insert e l)).
Proof.
  induction l as [|h t IH]; intros Hn Hd; simpl.
  - constructor; [intros [] | constructor].
  - destruct (Qle_bool (fst e) (fst h)); simpl.
    + constructor; assumption.
    + inversion Hd as [|? ? Hh Ht]; subst. constructor.
      * rewrite insert_ids. intros [E | H]; [|contradiction].
        apply Hn. left. now symmetry.
      * apply IH; [|assumption]. intros H. apply Hn. now right.
Qed.

Lemma sort_ids (l : list (Q * Z)) (z : Z) : In z (map snd (Faiss.sort l)) <-> In z (map snd l).
Proof.
  rewrite !in_map_iff. split; intros [y [<- H]]; exists y; (split; [reflexivity|]);
    now apply sort_In.
Qed.

Lemma sort_NoDup (l : list (Q * Z)) : NoDup (map snd l) -> NoDup (map snd (Faiss.sort l)).
Proof.
  induction l as [|h t IH]; intros Hd; simpl; [constructor|].
  inversion Hd as [|? ? Hh Ht]; subst.
  apply insert_NoDup; [|now apply IH]. now rewrite sort_ids.
Qed.

Lemma neighbours_NoDup (idx : Faiss.IndexFlatL2) (x : list Q) :
  NoDup (map snd (Faiss.neighbours idx x)).
Proof.
  unfold Faiss.neighbours. apply sort_NoDup. rewrite map_map. simpl.
  apply enumerate_from_ids.
Qed.

Lemma getitem_nth {A} (l : list A) (i : Z) (default : A) :
  (0 <= i < Z.of_nat (List.length l))%Z ->
  Py.getitem l i = Return (nth (Z.to_nat i) l default).
Proof.
  intros H. unfold Py.getitem.
  destruct (i <? 0)%Z eqn:E; [apply Z.ltb_lt in E; lia|]. rewrite E.
  destruct (nth_error l (Z.to_nat i)) eqn:N.
  - f_equal. symmetry. now apply nth_error_nth.
  - apply nth_error_None in N. lia.
Qed.

Lemma getitem_In {A} (l : list A) (i : Z) (a : A) : Py.getitem l i = Return a -> In a l.
Proof.
  unfold Py.getitem. destruct (_ <? 0)%Z; [discriminate|].
  destruct (nth_error l _) eqn:N; [|discriminate].
  intros H. injection H as <-. now apply nth_error_In in N.
Qed.

Lemma getitem_Raise {A} (l : list A) (i : Z) (e : exn) :
  Py.getitem l i = Raise e -> e = IndexError.
Proof.
  unfold Py.getitem. destruct (_ <? 0)%Z; [intros H; now injection H|].
  destruct (nth_error l _); [discriminate | intros H; now injection H].
Qed.

Lemma getitem_empty {A} (i : Z) : Py.getitem (@nil A) i = Raise IndexError.
Proof.
  unfold Py.getitem. simpl. destruct (_ <? 0)%Z; [reflexivity|].
  destruct (Z.to_nat _); reflexivity.
Qed.

Lemma comprehension_map {A B} (f : A -> outcome B) (g : A -> B) (xs : list A) :
  (forall x, In x xs -> f x = Return (g x)) ->
  Py.comprehension f xs = Return (map g xs).
Proof.
  induction xs as [|x xs IH]; intros H; [reflexivity|]. simpl.
  rewrite (H x (or_introl eq_refl)). cbn [bind].
  rewrite IH by (intros y Hy; apply H; now right). reflexivity.
Qed.

Lemma comprehension_In {A B} (f : A -> outcome B) (xs : list A) (ys : list B) (y : B) :
  Py.comprehension f xs = Return ys -> In y ys -> exists x, In x xs /\ f x = Return y.
Proof.
  revert ys. induction xs as [|x xs IH]; intros ys; simpl.
  - intros H. injection H as <-. intros [].
  - destruct (f x) as [b|] eqn:F; cbn [bind]; [|discriminate].
    destruct (Py.comprehension f xs) as [bs|]; cbn [bind]; [|discriminate].
    intros H. injection H as <-. intros [<- | Hy].
    + exists x. split; [now left | exact F].
    + destruct (IH bs eq_refl Hy) as [x' [Hx Hf]]. exists x'. split; [now right | exact Hf].
Qed.

Lemma comprehension_Raise {A B} (f : A -> outcome B) (xs : list A) (e : exn) :
  Py.comprehension f xs = Raise e -> exists x, In x xs /\ f x = Raise e.
Proof.
  induction xs as [|x xs IH]; simpl; [discriminate|].
  destruct (f x) as [b|e'] eqn:F; cbn [bind].
  - destruct (Py.comprehension f xs) as [bs|e'']; cbn [bind]; [discriminate|].
    intros H. injection H as ->. destruct (IH eq_refl) as [x' [Hx Hf]].
    exists x'. split; [now right | exact Hf].
  - intros H. injection H as ->. exists x. split; [now left | exact F].
Qed.

(* ================================================================= *)
(** ** Retrieval on an index that holds the embeddings of the texts *)

Section RetrievalAligned.

Variable encode : str -> list Q.

Lemma search_without_padding (idx : Faiss.IndexFlatL2) (x : list Q) (k : nat) :
  List.length x = Faiss.d idx ->
  0 < k ->
  k <= Faiss.ntotal idx ->
  Faiss.search idx x k
  = Return (map fst (firstn k (Faiss.neighbours idx x)),
            map snd (firstn k (Faiss.neighbours idx x))).
Proof.
  intros Hd H0 Hk. unfold Faiss.search. rewrite (proj2 (Nat.eqb_eq _ _) Hd). cbn [negb].
  rewrite (proj2 (Nat.eqb_neq k 0)) by lia.
  rewrite length_firstn, neighbours_length.
  replace (k - Nat.min k (Faiss.ntotal idx)) with 0 by lia.
  simpl repeat. now rewrite !app_nil_r.
Qed.

Lemma to_nat_NoDup (l : list Z) :
  (forall z, In z l -> (0 <= z)%Z) -> NoDup l -> NoDup (map Z.to_nat l).
Proof.
  intros H. apply NoDup_map_NoDup_ForallPairs. intros x y Hx Hy E.
  apply Z2Nat.inj; auto.
Qed.

Lemma firstn_NoDup {A} (n : nat) (l : list A) : NoDup l -> NoDup (firstn n l).
Proof.
  intros H. rewrite <- (firstn_skipn n l) in H. now apply NoDup_app_remove_r in H.
Qed.

End RetrievalAligned.

Section RetrievalOutcomes.

Variable encode : str -> list Q.

Lemma find_relevant_chunks_Raise (p : StoryProcessor) (query : str) (k : nat) (e : exn) :
  find_relevant_chunks encode p query k = Raise e ->
  (index p = None /\ e = AttributeError) \/ e = AssertionError \/ e = IndexError.
Proof.
  unfold find_relevant_chunks. destruct (index p) as [idx|].
  - unfold Faiss.search. destruct (negb _); cbn [bind];
      [intros H; injection H as <-; auto|].
    destruct (k =? 0); cbn [bind].
    + intros H. injection H as <-. auto.
    + intros H. apply comprehension_Raise in H. destruct H as [i [_ H]].
      apply getitem_Raise in H. auto.
  - intros H. injection H as <-. auto.
Qed.

Lemma find_relevant_chunks_In (p : StoryProcessor) (query : str) (k : nat)
    (chunks : list str) (c : str) :
  find_relevant_chunks encode p query k = Return chunks -> In c chunks -> In c (texts p).
Proof.
  unfold find_relevant_chunks. destruct (index p) as [idx|]; [|discriminate].
  destruct (Faiss.search idx (encode query) k) as [[D I]|]; cbn [bind]; [|discriminate].
  intros H Hc. destruct (comprehension_In _ _ _ c H Hc) as [i [_ Hi]].
  now apply getitem_In in Hi.
Qed.

End RetrievalOutcomes.

(* ================================================================= *)
(** ** Lookup: errors, and what it reads *)

Section LookupOutcomes.

Variable encode : str -> list Q.
Variable next_iter : list str -> str.

Lemma aspect_Raise (p : StoryProcessor) (query : str) (e : exn) :
  aspect encode p query = Raise e ->
  (index p = None /\ e = AttributeError) \/ e = AssertionError \/ e = IndexError.
Proof.
  unfold aspect. destruct (find_relevant_chunks encode p query 5) as [chunks|e'] eqn:F;
    cbn [bind]; [discriminate|].
  intros H. injection H as <-. now apply find_relevant_chunks_Raise in F.
Qed.

Lemma relevant_chunks_Raise (p : StoryProcessor) (character_name : str) (e : exn) :
  relevant_chunks encode p character_name = Raise e ->
  (index p = None /\ e = AttributeError) \/ e = AssertionError \/ e = IndexError.
Proof.
  unfold relevant_chunks.
  destruct (aspect encode p ("story title " ++ character_name)) eqn:A1; cbn [bind];
    [|intros H; injection H as <-; now apply aspect_Raise in A1].
  destruct (aspect encode p ("summary of " ++ character_name ++ "'s role")) eqn:A2; cbn [bind];
    [|intros H; injection H as <-; now apply aspect_Raise in A2].
  destruct (aspect encode p ("relationships of " ++ character_name)) eqn:A3; cbn [bind];
    [|intros H; injection H as <-; now apply aspect_Raise in A3].
  destruct (aspect encode p ("character type role of " ++ character_name)) eqn:A4; cbn [bind];
    [discriminate | intros H; injection H as <-; now apply aspect_Raise in A4].
Qed.

Lemma load_existing_resident_id (dk : Disk) (p : StoryProcessor) :
  index p <> None -> load_existing dk p = (Return tt, p).
Proof. unfold load_existing. destruct (index p); [reflexivity | contradiction]. Qed.

Lemma load_existing_Raise (dk : Disk) (p p' : StoryProcessor) (e : exn) :
  load_existing dk p = (Raise e, p') ->
  index p = None /\
  ((e = ValueError /\ (index_file dk = Missing \/ store_file dk = Missing) /\ p' = p) \/
   (e = RuntimeError /\ index_file dk = Corrupt /\ store_file dk <> Missing /\ p' = p) \/
   (e = UnpicklingError /\ store_file dk = Corrupt /\
    exists idx, index_file dk = Stored idx /\
                p' = {| index := Some idx; texts := texts p; metadatas := metadatas p |})).
Proof.
  unfold load_existing. destruct (index p); [discriminate|]. intros H. split; [reflexivity|].
  destruct (index_file dk) as [| |idx], (store_file dk) as [| |data]; cbn in H;
    try discriminate; injection H as <- <-; auto 10.
  - right. left. repeat split; discriminate.
  - right. left. repeat split; discriminate.
  - right. right. split; [reflexivity|]. split; [reflexivity|]. now exists idx.
Qed.

Lemma load_existing_fresh (dk : Disk) (idx : Faiss.IndexFlatL2) (ts ms : list str) :
  index_file dk = Stored idx ->
  store_file dk = Stored (ts, ms) ->
  load_existing dk init = (Return tt, {| index := Some idx; texts := ts; metadatas := ms |}).
Proof. intros Hi Hs. unfold load_existing. cbn. now rewrite Hi, Hs. Qed.

Lemma scan_sources_ext (dk dk' : Disk) (character_name : str) (ms acc : list str) :
  source_files dk' = source_files dk ->
  scan_sources dk' character_name ms acc = scan_sources dk character_name ms acc.
Proof.
  intros E. revert acc. induction ms as [|m ms IH]; intros acc; simpl; [reflexivity|].
  rewrite E. destruct (source_files dk m); [|reflexivity].
  destruct (Py.contains _ _); apply IH.
Qed.

Lemma assemble_ext (dk dk' : Disk) (p : StoryProcessor) (character_name : str) :
  source_files dk' = source_files dk ->
  assemble encode next_iter dk' p character_name = assemble encode next_iter dk p character_name.
Proof. intros E. unfold assemble. now rewrite (scan_sources_ext dk dk' _ _ _ E). Qed.

Lemma assemble_Raise (dk : Disk) (p : StoryProcessor) (character_name : str) (e : exn) :
  index p <> None ->
  assemble encode next_iter dk p character_name = Raise e ->
  (relevant_chunks encode p character_name = Raise e /\ (e = AssertionError \/ e = IndexError))
  \/
  ((exists rc, relevant_chunks encode p character_name = Return rc) /\
   e = OSError /\
   exists src, In src (metadatas p) /\ source_files dk src = None).
Proof.
  intros Hi. unfold assemble.
  destruct (relevant_chunks encode p character_name) as [rc|e'] eqn:R; cbn [bind].
  - destruct (scan_sources dk character_name (metadatas p) []) as [ss|e'] eqn:S; cbn [bind].
    + destruct ss; discriminate.
    + intros H. injection H as <-. apply scan_sources_Raise in S.
      right. split; [now exists rc | exact S].
  - intros H. injection H as <-. left. split; [reflexivity|].
    apply relevant_chunks_Raise in R. destruct R as [[Hn _] | R]; [contradiction | exact R].
Qed.

End LookupOutcomes.

(* ================================================================= *)
(** ** From the build to the lookup *)

Lemma corpus_sources_In (stories : list Document) (src : str) :
  In src (corpus_sources stories) <->
  exists story, In story stories /\ source story = src /\ story_chunks story <> [].
Proof.
  unfold corpus_sources. rewrite in_flat_map. split.
  - intros [story [Hs Hin]]. apply in_map_iff in Hin. destruct Hin as [chunk [<- Hc]].
    exists story. split; [exact Hs|]. split; [reflexivity|].
    intros E. rewrite E in Hc. exact Hc.
  - intros [story [Hs [<- Hne]]]. exists story. split; [exact Hs|].
    destruct (story_chunks story) as [|chunk chunks]; [contradiction | now left].
Qed.

Section Built.

Variable encode : str -> list Q.
Variable next_iter : list str -> str.

(** What a successful build from a fresh processor leaves. *)
Lemma process_stories_fresh (dk dk1 : Disk) (p1 : StoryProcessor) (stories : list Document) :
  process_stories encode dk init stories = (Return tt, p1, dk1) ->
  exists first rest,
    corpus_texts stories = first :: rest /\
    let idx := Faiss.add (Faiss.new (List.length (encode first)))
                 (map encode (corpus_texts stories)) in
    p1 = {| index := Some idx; texts := corpus_texts stories;
            metadatas := corpus_sources stories |} /\
    dk1 = {| index_file := Stored idx;
             store_file := Stored (corpus_texts stories, corpus_sources stories);
             source_files := source_files dk |}.
Proof.
  rewrite process_stories_eq. cbv zeta. cbn [texts metadatas init app].
  destruct (corpus_texts stories) as [|first rest]; [discriminate|].
  intros H. injection H as <- <-. now exists first, rest.
Qed.

Lemma built_lookup_loads (dk dk1 : Disk) (p1 : StoryProcessor) (stories : list Document)
    (n : nat) (character_name : str) :
  fixed_dimension encode n ->
  process_stories encode dk init stories = (Return tt, p1, dk1) ->
  load_existing dk1 init = (Return tt, p1) /\
  load_existing dk1 p1 = (Return tt, p1) /\
  metadatas p1 = corpus_sources stories /\
  source_files dk1 = source_files dk /\
  exists rc, relevant_chunks encode p1 character_name = Return rc.
Proof.
  intros Hn H. apply process_stories_fresh in H.
  destruct H as [first [rest [Ht [-> ->]]]].
  split; [now apply load_existing_fresh|].
  split; [now apply load_existing_resident_id|].
  split; [reflexivity|]. split; [reflexivity|].
  apply (relevant_chunks_returns encode _
           (Faiss.add (Faiss.new (List.length (encode first)))
              (map encode (corpus_texts stories)))).
  - reflexivity.
  - intros query. cbn. now rewrite !Hn.
  - cbn. rewrite Ht. discriminate.
  - unfold Faiss.ntotal. cbn. now rewrite length_map.
Qed.

Lemma built_lookup (dk dk1 : Disk) (p1 : StoryProcessor) (stories : list Document)
    (n : nat) (character_name : str) :
  fixed_dimension encode n ->
  process_stories encode dk init stories = (Return tt, p1, dk1) ->
  (forall story, In story stories -> story_chunks story <> [] -> readable dk (source story)) ->
  get_character_info encode next_iter dk1 init character_name
  = get_character_info encode next_iter dk1 p1 character_name /\
  (exists o, get_character_info encode next_iter dk1 p1 character_name = (Return o, p1)) /\
  (fst (get_character_info encode next_iter dk1 p1 character_name) = Return None <->
   forall story content,
     In story stories -> story_chunks story <> [] ->
     source_files dk (source story) = Some content ->
     Py.contains (Py.lower character_name) (Py.lower content) = false).
Proof.
  intros Hn H Hread.
  destruct (built_lookup_loads dk dk1 p1 stories n character_name Hn H)
    as [L0 [L1 [Hm [Hf [rc R]]]]].
  assert (Hscan : exists ss, scan_sources dk1 character_name (metadatas p1) [] = Return ss).
  { apply scan_sources_returns. intros src Hs. rewrite Hm in Hs.
    apply corpus_sources_In in Hs. destruct Hs as [story [Hin [<- Hne]]].
    destruct (Hread story Hin Hne) as [content Hc]. exists content. now rewrite Hf. }
  split; [|split].
  - unfold get_character_info. now rewrite L0, L1.
  - unfold get_character_info. rewrite L1. destruct Hscan as [ss S].
    unfold assemble. rewrite R, S. cbn [bind]. destruct ss; eexists; reflexivity.
  - rewrite lookup_absent_iff. split.
    + intros [p' [L [_ Hall]]] story content Hin Hne Hc.
      rewrite L1 in L. injection L as <-.
      destruct (Hall (source story)) as [content' [Hc' Hno]].
      * rewrite Hm. apply corpus_sources_In. now exists story.
      * rewrite Hf in Hc'. congruence.
    + intros Hall. exists p1. split; [exact L1|]. split; [now exists rc|].
      intros src Hs. rewrite Hm in Hs. apply corpus_sources_In in Hs.
      destruct Hs as [story [Hin [<- Hne]]].
      destruct (Hread story Hin Hne) as [content Hc]. exists content.
      split; [now rewrite Hf | now apply (Hall story content)].
Qed.

Lemma read_stories_Return (dk : Disk) (story_files : list str) (stories : list Document) :
  read_stories dk story_files = Return stories ->
  (forall story, In story stories ->
     In (source story) story_files /\
     source_files dk (source story) = Some (page_content story)) /\
  (forall file_path content, In file_path story_files ->
     source_files dk file_path = Some content ->
     In {| page_content := content; source := file_path |} stories).
Proof.
  revert stories. induction story_files as [|f rest IH]; intros stories; simpl.
  - intros H. injection H as <-. split; [intros s [] | intros f c []].
  - destruct (source_files dk f) as [content|] eqn:F; [|discriminate].
    destruct (read_stories dk rest) as [others|]; cbn [bind]; [|discriminate].
    intros H. injection H as <-. destruct (IH others eq_refl) as [IH1 IH2]. split.
    + intros story [<- | Hs]; [simpl; auto|].
      destruct (IH1 story Hs) as [H1 H2]. auto.
    + intros file_path c [<- | Hin] Hc.
      * left. congruence.
      * right. now apply IH2.
Qed.

Lemma read_stories_Raise (dk : Disk) (story_files : list str) (e : exn) :
  read_stories dk story_files = Raise e <->
  e = OSError /\ exists file_path, In file_path story_files /\ source_files dk file_path = None.
Proof.
  induction story_files as [|f rest IH]; simpl.
  - split; [discriminate | intros [_ [f [[] _]]]].
  - destruct (source_files dk f) as [content|] eqn:F.
    + destruct (read_stories dk rest) as [others|e']; cbn [bind].
      * split; [discriminate|]. intros [-> [g [[<- | Hg] Hn]]]; [congruence|].
        exfalso. assert (X : Return others = Raise OSError)
          by (apply (proj2 IH); split; [reflexivity | now exists g]).
        discriminate.
      * split.
        -- intros H. injection H as <-. destruct (proj1 IH eq_refl) as [-> [g [Hg Hn]]].
           split; [reflexivity | exists g; auto].
        -- intros [-> [g [[<- | Hg] Hn]]]; [congruence|].
           apply (proj2 IH). split; [reflexivity | now exists g].
    + split; [intros H; injection H as <-; split; [reflexivity | exists f; auto]|].
      intros [-> _]. reflexivity.
Qed.

Lemma read_stories_ext (dk dk' : Disk) (story_files : list str) :
  source_files dk' = source_files dk ->
  read_stories dk' story_files = read_stories dk story_files.
Proof.
  intros E. induction story_files as [|f rest IH]; simpl; [reflexivity|].
  now rewrite E, IH.
Qed.

End Built.

(* ================================================================= *)
(** ** Further properties of the program *)

(** X1. On a processor whose index holds as many vectors as there are
    texts, retrieval with a positive [k] no larger than the number of texts
    returns the texts at [k] distinct positions of the store: no padding
    label is read, and no position is read twice. *)
Theorem retrieve_distinct_positions (encode : str -> list Q) (p : StoryProcessor)
    (idx : Faiss.IndexFlatL2) (query : str) (k : nat) :
  index p = Some idx ->
  Faiss.ntotal idx = List.length (texts p) ->
  List.length (encode query) = Faiss.d idx ->
  0 < k ->
  k <= List.length (texts p) ->
  exists positions,
    List.length positions = k /\
    NoDup positions /\
    (forall i, In i positions -> i < List.length (texts p)) /\
    find_relevant_chunks encode p query k
    = Return (map (fun i => nth i (texts p) []) positions).
Proof.
  intros Hi Hn Hd H0 Hk.
  set (L := Faiss.neighbours idx (encode query)).
  set (best := firstn k L).
  assert (Hlabel : forall e, In e best -> (0 <= snd e < Z.of_nat (List.length (texts p)))%Z).
  { intros e He. rewrite <- Hn. apply neighbours_label with (x := encode query).
    now apply In_firstn in He. }
  exists (map (fun e => Z.to_nat (snd e)) best).
  split; [|split; [|split]].
  - rewrite length_map. unfold best. rewrite length_firstn.
    unfold L. rewrite neighbours_length. lia.
  - rewrite <- map_map. apply to_nat_NoDup.
    + intros z Hz. apply in_map_iff in Hz. destruct Hz as [e [<- He]].
      apply (Hlabel e He).
    + unfold best. rewrite <- firstn_map. apply firstn_NoDup, neighbours_NoDup.
  - intros i Hin. apply in_map_iff in Hin. destruct Hin as [e [<- He]].
    pose proof (Hlabel e He) as H. lia.
  - unfold find_relevant_chunks. rewrite Hi.
    rewrite search_without_padding by (try assumption; lia). cbn [bind snd].
    fold L. fold best. rewrite map_map.
    rewrite (comprehension_map _ (fun i => nth (Z.to_nat i) (texts p) [])).
    + now rewrite map_map.
    + intros i Hin. apply in_map_iff in Hin. destruct Hin as [e [<- He]].
      apply getitem_nth. apply (Hlabel e He).
Qed.

Lemma retrieve_distinct_positions_witness :
  exists positions,
    List.length positions = 2 /\
    NoDup positions /\
    (forall i, In i positions -> i < List.length (texts three_chunks)) /\
    find_relevant_chunks toy_encode three_chunks "q" 2
    = Return (map (fun i => nth i (texts three_chunks) []) positions).
Proof.
  apply (retrieve_distinct_positions toy_encode three_chunks
           (Faiss.add (Faiss.new 1) (map toy_encode (texts three_chunks))));
    [reflexivity | reflexivity | reflexivity | lia | vm_compute; lia].
Defined.

(** X3. A retrieval that returns gives exactly [k] chunks, and every one
    of them is one of the stored texts. *)
Theorem retrieved_chunks_are_stored_texts (encode : str -> list Q) (p : StoryProcessor)
    (query : str) (k : nat) (chunks : list str) :
  find_relevant_chunks encode p query k = Return chunks ->
  List.length chunks = k /\ forall c, In c chunks -> In c (texts p).
Proof.
  intros H. split; [now apply find_relevant_chunks_length in H|].
  intros c. now apply find_relevant_chunks_In with (1 := H).
Qed.

Lemma retrieved_chunks_are_stored_texts_witness :
  exists chunks,
    find_relevant_chunks toy_encode three_chunks "q" 5 = Return chunks /\
    List.length chunks = 5 /\
    forall c, In c chunks -> In c (texts three_chunks).
Proof.
  eexists. split; [vm_compute; reflexivity|].
  apply (retrieved_chunks_are_stored_texts toy_encode three_chunks "q" 5). reflexivity.
Defined.

(** X4. With an index resident, retrieval raises an assertion error when
    the query's embedding has another dimension than the index, an index
    error when no text is stored and [k] is positive, and no other kind of
    error. *)
Theorem retrieval_errors (encode : str -> list Q) (p : StoryProcessor)
    (idx : Faiss.IndexFlatL2) (query : str) (k : nat) :
  index p = Some idx ->
  (List.length (encode query) <> Faiss.d idx ->
   find_relevant_chunks encode p query k = Raise AssertionError) /\
  (List.length (encode query) = Faiss.d idx -> texts p = [] -> 0 < k ->
   find_relevant_chunks encode p query k = Raise IndexError) /\
  (forall e, find_relevant_chunks encode p query k = Raise e ->
             e = AssertionError \/ e = IndexError).
Proof.
  intros Hi. split; [|split].
  - intros Hd. unfold find_relevant_chunks, Faiss.search. rewrite Hi.
    apply Nat.eqb_neq in Hd. now rewrite Hd.
  - intros Hd Ht Hk.
    destruct (find_relevant_chunks encode p query k) as [chunks|e] eqn:F.
    + exfalso. pose proof (find_relevant_chunks_length encode p query k chunks F) as L.
      destruct chunks as [|c chunks]; [simpl in L; lia|].
      pose proof (find_relevant_chunks_In encode p query k _ c F (or_introl eq_refl)) as Hc.
      rewrite Ht in Hc. exact Hc.
    + destruct (find_relevant_chunks_Raise encode p query k e F) as [[Hn _] | [-> | ->]];
        [congruence | | reflexivity].
      exfalso. unfold find_relevant_chunks, Faiss.search in F. rewrite Hi in F.
      rewrite (proj2 (Nat.eqb_eq _ _) Hd) in F. cbn [negb bind] in F.
      rewrite (proj2 (Nat.eqb_neq k 0)) in F by lia. cbn [bind] in F.
      apply comprehension_Raise in F. destruct F as [i [_ F]].
      apply getitem_Raise in F. discriminate.
  - intros e F. destruct (find_relevant_chunks_Raise encode p query k e F) as [[Hn _] | H];
      [congruence | exact H].
Qed.

Lemma retrieval_errors_witness :
  find_relevant_chunks toy_encode empty_store "q" 5 = Raise IndexError.
Proof.
  apply (proj1 (proj2 (retrieval_errors toy_encode empty_store (Faiss.new 1) "q" 5 eq_refl)));
    [reflexivity | reflexivity | lia].
Defined.

(** X5. After [process_stories] has succeeded, whatever the processor held
    before, the resident index holds the embeddings of all the texts in
    order, there are as many metadata entries as texts when that was so
    before, there is at least one text, and the persisted pair is the
    resident one. *)
Theorem process_stories_aligns (encode : str -> list Q) (dk dk1 : Disk)
    (p p1 : StoryProcessor) (stories : list Document) :
  List.length (texts p) = List.length (metadatas p) ->
  process_stories encode dk p stories = (Return tt, p1, dk1) ->
  exists idx,
    index p1 = Some idx /\
    Faiss.xb idx = map encode (texts p1) /\
    Faiss.ntotal idx = List.length (texts p1) /\
    List.length (texts p1) = List.length (metadatas p1) /\
    texts p1 <> [] /\
    index_file dk1 = Stored idx /\
    store_file dk1 = Stored (texts p1, metadatas p1) /\
    source_files dk1 = source_files dk.
Proof.
  intros Hl. rewrite process_stories_eq. cbv zeta.
  destruct (texts p ++ corpus_texts stories) as [|first ts] eqn:E; [discriminate|].
  intros H. injection H as <- <-. cbn [index texts metadatas index_file store_file source_files].
  eexists. split; [reflexivity|]. split; [reflexivity|]. split.
  - unfold Faiss.ntotal. cbn. now rewrite length_map.
  - split; [|split; [discriminate | auto]].
    rewrite <- E, !length_app, corpus_lengths. lia.
Qed.

Lemma process_stories_aligns_witness :
  exists idx,
    index (snd (fst hero_built)) = Some idx /\
    Faiss.xb idx = map toy_encode (texts (snd (fst hero_built))) /\
    Faiss.ntotal idx = List.length (texts (snd (fst hero_built))) /\
    List.length (texts (snd (fst hero_built))) = List.length (metadatas (snd (fst hero_built))) /\
    texts (snd (fst hero_built)) <> [] /\
    index_file hero_disk = Stored idx /\
    store_file hero_disk = Stored (texts (snd (fst hero_built)), metadatas (snd (fst hero_built))) /\
    source_files hero_disk = source_files (empty_disk (one_file "hero.txt" hero_text)).
Proof.
  apply (process_stories_aligns toy_encode (empty_disk (one_file "hero.txt" hero_text))
           hero_disk init (snd (fst hero_built))
           [ {| page_content := hero_text; source := "hero.txt" |} ]);
    reflexivity.
Defined.

(** X6. Processing stories in two runs on the same processor leaves the
    same outcome, processor and disk as processing them in one run: the
    second run embeds and indexes the texts of both and overwrites the
    persisted pair. *)
Theorem process_stories_in_two_runs (encode : str -> list Q) (dk : Disk) (p : StoryProcessor)
    (first second : list Document) :
  process_stories encode
    (snd (process_stories encode dk p first))
    (snd (fst (process_stories encode dk p first)))
    second
  = process_stories encode dk p (first ++ second).
Proof.
  rewrite (process_stories_eq encode dk p (first ++ second)).
  rewrite (process_stories_eq encode dk p first). cbv zeta.
  rewrite corpus_texts_app, corpus_sources_app, !app_assoc.
  destruct (texts p ++ corpus_texts first) as [|t ts] eqn:E;
    cbn [fst snd]; rewrite process_stories_eq; cbn [texts metadatas index source_files];
    reflexivity.
Qed.

(** X7. [process_stories] only appends: the texts and metadata held before
    stay in front, and each new text comes with the source of a story it
    is a chunk of, so it is a non-empty run of that story's text of at most
    1000 characters with no whitespace at either end. *)
Theorem stored_texts_come_from_stories (encode : str -> list Q) (dk dk1 : Disk)
    (p p1 : StoryProcessor) (stories : list Document) (o : outcome unit) :
  process_stories encode dk p stories = (o, p1, dk1) ->
  exists new_texts new_sources,
    texts p1 = texts p ++ new_texts /\
    metadatas p1 = metadatas p ++ new_sources /\
    List.length new_texts = List.length new_sources /\
    forall text src, In (text, src) (combine new_texts new_sources) ->
      exists story,
        In story stories /\
        source story = src /\
        In text (text_splitter_split_text (page_content story)) /\
        text <> [] /\
        Py.strip text = text /\
        occurs text (page_content story) /\
        List.length text <= 1000.
Proof.
  rewrite process_stories_eq. cbv zeta. intros H.
  exists (corpus_texts stories), (corpus_sources stories).
  assert (Ht : texts p1 = texts p ++ corpus_texts stories
               /\ metadatas p1 = metadatas p ++ corpus_sources stories).
  { destruct (texts p ++ corpus_texts stories) eqn:E; injection H as _ <- _; cbn; auto. }
  destruct Ht as [Ht Hm]. split; [exact Ht|]. split; [exact Hm|].
  split; [apply corpus_lengths|].
  intros text src Hin. apply corpus_pairs in Hin. destruct Hin as [story [Hs [Hsrc Hc]]].
  exists story. split; [exact Hs|]. split; [exact Hsrc|]. split; [exact Hc|].
  apply split_text_chunks in Hc. exact Hc.
Qed.

Lemma stored_texts_come_from_stories_witness :
  exists new_texts new_sources,
    texts (snd (fst hero_built)) = texts init ++ new_texts /\
    metadatas (snd (fst hero_built)) = metadatas init ++ new_sources /\
    List.length new_texts = List.length new_sources /\
    forall text src, In (text, src) (combine new_texts new_sources) ->
      exists story,
        In story [ {| page_content := hero_text; source := "hero.txt" |} ] /\
        source story = src /\
        In text (text_splitter_split_text (page_content story)) /\
        text <> [] /\
        Py.strip text = text /\
        occurs text (page_content story) /\
        List.length text <= 1000.
Proof.
  apply (stored_texts_come_from_stories toy_encode
           (empty_disk (one_file "hero.txt" hero_text)) hero_disk init (snd (fst hero_built))
           [ {| page_content := hero_text; source := "hero.txt" |} ] (Return tt)).
  reflexivity.
Defined.

(** X8. [process_stories] raises exactly when there is no text to embed:
    the processor held none and every story is empty or all whitespace.
    The error is the index error of [embeddings.shape[1]]; it comes before
    anything is written, so the disk and the index are left as they
    were. *)
Theorem process_stories_raises_iff (encode : str -> list Q) (dk : Disk) (p : StoryProcessor)
    (stories : list Document) :
  (fst (fst (process_stories encode dk p stories)) = Raise IndexError <->
   texts p = [] /\ forall story, In story stories -> whitespace_only (page_content story)) /\
  (forall e, fst (fst (process_stories encode dk p stories)) = Raise e ->
     e = IndexError /\
     snd (process_stories encode dk p stories) = dk /\
     index (snd (fst (process_stories encode dk p stories))) = index p).
Proof.
  rewrite process_stories_eq. cbv zeta. rewrite <- corpus_texts_nil_iff.
  destruct (texts p ++ corpus_texts stories) as [|t ts] eqn:E; cbn [fst snd index].
  - apply app_eq_nil in E. split; [tauto|]. intros e H. injection H as <-. auto.
  - split; [|discriminate]. split; [discriminate|].
    intros [H1 H2]. rewrite H1, H2 in E. discriminate.
Qed.

Lemma process_stories_raises_iff_witness :
  fst (fst (process_stories toy_encode (empty_disk no_files) init
              [ {| page_content := "  "; source := "blank.txt" |} ]))
  = Raise IndexError.
Proof.
  apply (proj1 (process_stories_raises_iff toy_encode (empty_disk no_files) init
                  [ {| page_content := "  "; source := "blank.txt" |} ])).
  split; [reflexivity|].
  intros story [<- | []] c [<- | [<- | []]]; reflexivity.
Defined.

(** X9. Every chunk the configured splitter gives is a non-empty
    contiguous run of the text, has no whitespace at either end, and has at
    most 1000 characters. *)
Theorem chunks_are_bounded_pieces (text chunk : str) :
  In chunk (text_splitter_split_text text) ->
  chunk <> [] /\
  occurs chunk text /\
  Py.strip chunk = chunk /\
  List.length chunk <= 1000.
Proof.
  intros H. apply split_text_chunks in H. destruct H as [H1 [H2 [H3 H4]]]. auto.
Qed.

Lemma chunks_are_bounded_pieces_witness :
  In hero_text (text_splitter_split_text hero_text) /\
  hero_text <> [] /\
  occurs hero_text hero_text /\
  Py.strip hero_text = hero_text /\
  List.length hero_text <= 1000.
Proof.
  assert (H : In hero_text (text_splitter_split_text hero_text)) by (now left).
  split; [exact H|]. exact (chunks_are_bounded_pieces hero_text hero_text H).
Defined.

(** X10. A text gives no chunk at all exactly when it is empty or holds
    nothing but whitespace. *)
Theorem no_chunk_iff_whitespace (text : str) :
  text_splitter_split_text text = [] <-> forall c, In c text -> Py.isspace c = true.
Proof. apply split_text_nil_iff. Qed.

(** X11. The shape of every record a lookup returns: the name is the name
    asked for, the summary is the first 500 characters of the summary
    aspect text (all of it when it is shorter), there are at most three
    relations, each named "Unknown" with a stripped text that holds no
    period, and the character type is one of the four types. *)
Theorem record_shape (encode : str -> list Q) (next_iter : list str -> str)
    (dk : Disk) (p p' : StoryProcessor) (character_name : str) (r : CharacterInfo) :
  get_character_info encode next_iter dk p character_name = (Return (Some r), p') ->
  name r = character_name /\
  (exists summary_text,
     aspect encode p' ("summary of " ++ character_name ++ "'s role") = Return summary_text /\
     summary r = firstn 500 summary_text /\
     List.length (summary r) <= 500 /\
     (List.length summary_text <= 500 -> summary r = summary_text)) /\
  List.length (relations r) <= 3 /\
  (forall rel, In rel (relations r) ->
     rel_name rel = "Unknown" /\
     ~ In "."%char (rel_relation rel) /\
     Py.strip (rel_relation rel) = rel_relation rel) /\
  (characterType r = "Protagonist" \/ characterType r = "Antagonist" \/
   characterType r = "Main Character" \/ characterType r = "Supporting Character").
Proof.
  intros H. apply get_character_info_load in H. destruct H as [_ H].
  apply assemble_Some in H. destruct H as [rc [ss [Hrc [_ [_ ->]]]]].
  apply relevant_chunks_inv in Hrc. destruct Hrc as [_ [Hsum _]].
  cbn [name summary relations characterType].
  split; [reflexivity|]. split; [|split; [|split]].
  - exists (rc_summary rc). split; [exact Hsum|]. split; [reflexivity|].
    split; [rewrite length_firstn; lia | intros L; now apply firstn_all2].
  - rewrite length_firstn. lia.
  - intros rel Hin. apply In_firstn in Hin. unfold relation_sentences in Hin.
    destruct (rc_relations rc) as [|c t]; [contradiction|].
    apply in_map_iff in Hin. destruct Hin as [sentence [<- Hs]]. cbn [rel_name rel_relation].
    apply filter_In in Hs. destruct Hs as [Hs _].
    split; [reflexivity|]. split; [|apply strip_idempotent].
    intros Hdot. apply (split_char_pieces "."%char (c :: t) sentence Hs).
    apply (occurs_In _ _ _ (strip_occurs sentence) Hdot).
  - unfold character_type_of.
    destruct (Py.contains _ _); [auto|].
    destruct (Py.contains _ _); [auto|].
    destruct (Py.contains _ _); auto.
Qed.

Lemma record_shape_witness :
  exists r p',
    get_character_info toy_encode first_added hero_disk init "Alice" = (Return (Some r), p') /\
    name r = "Alice" /\
    List.length (summary r) <= 500 /\
    List.length (relations r) <= 3.
Proof.
  eexists. eexists. split; [vm_compute; reflexivity|].
  destruct (record_shape toy_encode first_added hero_disk init _ "Alice" _ eq_refl)
    as [Hn [[text [_ [_ [Hs _]]]] [Hr _]]].
  split; [exact Hn|]. split; [exact Hs | exact Hr].
Defined.

Lemma no_chunk_iff_whitespace_witness : text_splitter_split_text "   " = [].
Proof.
  apply (proj2 (no_chunk_iff_whitespace "   ")).
  intros c [<- | [<- | [<- | []]]]; reflexivity.
Defined.

(** X12. The errors of a lookup.  It never ends with the attribute error
    of a missing index: the lazy load raises first.  It raises the "no
    index" value error exactly when no index is resident and the index file
    or the store file is missing, and the error of an unreadable source
    exactly when the load and the four retrievals succeed and some
    referenced source cannot be read. *)
Theorem lookup_errors (encode : str -> list Q) (next_iter : list str -> str)
    (dk : Disk) (p : StoryProcessor) (character_name : str) :
  (forall e, fst (get_character_info encode next_iter dk p character_name) = Raise e ->
             lookup_error e) /\
  (fst (get_character_info encode next_iter dk p character_name) = Raise ValueError <->
   index p = None /\ (index_file dk = Missing \/ store_file dk = Missing)) /\
  (fst (get_character_info encode next_iter dk p character_name) = Raise OSError <->
   exists p',
     load_existing dk p = (Return tt, p') /\
     (exists rc, relevant_chunks encode p' character_name = Return rc) /\
     exists src, In src (metadatas p') /\ source_files dk src = None).
Proof.
  unfold get_character_info, lookup_error.
  destruct (load_existing dk p) as [[[]|e0] p1] eqn:L; cbn [fst].
  - assert (Hres : index p1 <> None).
    { destruct (load_existing_resident dk p p1 L) as [idx ->]. discriminate. }
    assert (Hload : forall e, load_existing dk p <> (Raise e, p)).
    { intros e E. rewrite L in E. discriminate. }
    split; [|split].
    + intros e H. apply (assemble_Raise encode next_iter dk p1 character_name e Hres) in H.
      destruct H as [[_ [-> | ->]] | [_ [-> _]]]; auto 10.
    + split.
      * intros H. apply (assemble_Raise encode next_iter dk p1 character_name _ Hres) in H.
        destruct H as [[_ [H | H]] | [_ [H _]]]; discriminate.
      * intros [Hi HM]. exfalso. unfold load_existing in L. rewrite Hi in L.
        destruct HM as [HM | HM]; rewrite HM in L; cbn in L; [discriminate|].
        destruct (index_file dk); discriminate.
    + split.
      * intros H. apply (assemble_Raise encode next_iter dk p1 character_name _ Hres) in H.
        destruct H as [[_ [H | H]] | [R [_ S]]]; try discriminate.
        exists p1. auto.
      * intros [p' [L' [[rc R] [src [Hs Hn]]]]]. injection L' as <-.
        unfold assemble. rewrite R. cbn [bind].
        destruct (scan_sources dk character_name (metadatas p1) []) as [ss|e] eqn:S.
        -- exfalso. apply scan_sources_Return in S. destruct S as [S _].
           destruct (S src Hs) as [content Hc]. congruence.
        -- apply scan_sources_Raise in S. destruct S as [-> _]. reflexivity.
  - apply load_existing_Raise in L.
    destruct L as [Hi [[-> [HM _]] | [[-> [HC [HS _]]] | [-> [HC [idx [HI _]]]]]]].
    + split; [intros e H; injection H as <-; auto|]. split.
      * split; auto.
      * split; [discriminate | intros [p' [L' _]]; discriminate].
    + split; [intros e H; injection H as <-; auto|]. split.
      * split; [discriminate|]. intros [_ [HM | HM]]; congruence.
      * split; [discriminate | intros [p' [L' _]]; discriminate].
    + split; [intros e H; injection H as <-; auto|]. split.
      * split; [discriminate|]. intros [_ [HM | HM]]; congruence.
      * split; [discriminate | intros [p' [L' _]]; discriminate].
Qed.

Lemma lookup_errors_witness :
  fst (get_character_info toy_encode first_added (empty_disk no_files) init "Alice")
  = Raise ValueError.
Proof.
  apply (proj2 (proj1 (proj2 (lookup_errors toy_encode first_added
                                (empty_disk no_files) init "Alice")))).
  split; [reflexivity | now left].
Defined.

(** X13. With an index resident, a lookup reads neither the index file nor
    the store file and leaves the processor as it is: on any disk with the
    same story files it gives the same result. *)
Theorem resident_index_is_not_reloaded (encode : str -> list Q) (next_iter : list str -> str)
    (dk dk' : Disk) (p : StoryProcessor) (character_name : str) :
  index p <> None ->
  source_files dk' = source_files dk ->
  get_character_info encode next_iter dk' p character_name
  = get_character_info encode next_iter dk p character_name /\
  snd (get_character_info encode next_iter dk p character_name) = p.
Proof.
  intros Hi E. unfold get_character_info.
  rewrite !load_existing_resident_id by assumption.
  now rewrite (assemble_ext encode next_iter dk dk' p character_name E).
Qed.

Lemma resident_index_is_not_reloaded_witness :
  get_character_info toy_encode first_added
    (empty_disk (one_file "hero.txt" hero_text)) (snd (fst hero_built)) "Alice"
  = get_character_info toy_encode first_added hero_disk (snd (fst hero_built)) "Alice".
Proof.
  apply (resident_index_is_not_reloaded toy_encode first_added hero_disk
           (empty_disk (one_file "hero.txt" hero_text)) (snd (fst hero_built)) "Alice");
    [discriminate | reflexivity].
Defined.

(** X14. The lazy load is not atomic.  When the index file loads and the
    store file does not, the lookup raises with the index already
    installed and the texts as they were; a fresh processor is then left
    with an index and no text, and every later lookup on it skips the load
    and fails in retrieval. *)
Theorem failed_store_load_keeps_index (encode : str -> list Q) (next_iter : list str -> str)
    (dk : Disk) (idx : Faiss.IndexFlatL2) (character_name : str) :
  index_file dk = Stored idx ->
  store_file dk = Corrupt ->
  get_character_info encode next_iter dk init character_name
  = (Raise UnpicklingError, {| index := Some idx; texts := []; metadatas := [] |}) /\
  forall later_name,
    let p1 := snd (get_character_info encode next_iter dk init character_name) in
    snd (get_character_info encode next_iter dk p1 later_name) = p1 /\
    (fst (get_character_info encode next_iter dk p1 later_name) = Raise IndexError \/
     fst (get_character_info encode next_iter dk p1 later_name) = Raise AssertionError).
Proof.
  intros Hi Hs.
  assert (E : get_character_info encode next_iter dk init character_name
              = (Raise UnpicklingError, {| index := Some idx; texts := []; metadatas := [] |})).
  { unfold get_character_info, load_existing. cbn [index init]. rewrite Hi, Hs. reflexivity. }
  split; [exact E|]. intros later_name. rewrite E. cbn [snd].
  unfold get_character_info. rewrite load_existing_resident_id by discriminate.
  cbn [snd fst]. split; [reflexivity|].
  unfold assemble, relevant_chunks, aspect.
  set (query := "story title " ++ later_name).
  destruct (find_relevant_chunks encode {| index := Some idx; texts := []; metadatas := [] |}
              query 5) as [chunks|e] eqn:F; cbn [bind].
  - exfalso. pose proof (find_relevant_chunks_length encode _ query 5 chunks F) as L.
    destruct chunks as [|c chunks]; [discriminate|].
    apply (find_relevant_chunks_In encode _ query 5 _ c F). now left.
  - apply find_relevant_chunks_Raise in F.
    destruct F as [[Hn _] | [-> | ->]]; [discriminate | now right | now left].
Qed.

Lemma failed_store_load_keeps_index_witness :
  get_character_info toy_encode first_added corrupt_store_disk init "Alice"
  = (Raise UnpicklingError,
     {| index := Some (Faiss.add (Faiss.new 1) [toy_encode hero_text]);
        texts := []; metadatas := [] |}).
Proof.
  apply (proj1 (failed_store_load_keeps_index toy_encode first_added corrupt_store_disk
                  (Faiss.add (Faiss.new 1) [toy_encode hero_text]) "Alice"
                  eq_refl eq_refl)).
Defined.


Lemma toy_encode_dimension : fixed_dimension toy_encode 1.
Proof. intros text. reflexivity. Qed.




(** X17. How [compute_embeddings] can fail.  It ends with the error of
    [open] exactly when one of the story files cannot be read, and with the
    index error of an empty embedding array exactly when every file is
    read and none holds anything but whitespace, in particular when no
    file is given; whenever it fails the disk is left as it was. *)
Theorem compute_embeddings_failures (encode : str -> list Q) (dk : Disk)
    (story_files : list str) :
  (fst (compute_embeddings encode dk story_files) = Raise OSError <->
   exists file_path, In file_path story_files /\ source_files dk file_path = None) /\
  (fst (compute_embeddings encode dk story_files) = Raise IndexError <->
   forall file_path, In file_path story_files ->
     exists content, source_files dk file_path = Some content /\ whitespace_only content) /\
  (forall e, fst (compute_embeddings encode dk story_files) = Raise e ->
     snd (compute_embeddings encode dk story_files) = dk).
Proof.
  unfold compute_embeddings.
  destruct (read_stories dk story_files) as [stories|e] eqn:R; cbn [fst snd].
  - destruct (read_stories_Return dk story_files stories R) as [R1 R2].
    rewrite process_stories_eq. cbv zeta. cbn [texts metadatas init app].
    assert (Hnil : corpus_texts stories = [] <->
                   forall file_path, In file_path story_files ->
                     exists content,
                       source_files dk file_path = Some content /\ whitespace_only content).
    { rewrite corpus_texts_nil_iff. split.
      - intros Hall f Hf. destruct (source_files dk f) as [content|] eqn:F.
        + exists content. split; [reflexivity|].
          apply (Hall {| page_content := content; source := f |}). now apply R2.
        + exfalso. assert (X : read_stories dk story_files = Raise OSError)
            by (apply read_stories_Raise; split; [reflexivity | now exists f]).
          congruence.
      - intros Hall story Hs. destruct (R1 story Hs) as [Hf Hc].
        destruct (Hall (source story) Hf) as [content [Hc' Hw]].
        assert (content = page_content story) by congruence. now subst content. }
    destruct (corpus_texts stories) as [|first rest]; cbn [fst snd].
    + split; [|split].
      * split; [discriminate|]. intros [f [Hf Hn]].
        destruct (proj1 Hnil eq_refl f Hf) as [content [Hc _]]. congruence.
      * split; [intros _; now apply Hnil | reflexivity].
      * reflexivity.
    + split; [|split].
      * split; [discriminate|]. intros [f [Hf Hn]]. exfalso.
        assert (X : read_stories dk story_files = Raise OSError)
          by (apply read_stories_Raise; split; [reflexivity | now exists f]).
        congruence.
      * split; [discriminate|]. intros H. apply Hnil in H. discriminate.
      * discriminate.
  - pose proof (proj1 (read_stories_Raise dk story_files e) R) as [-> Hex].
    split; [|split].
    + split; [intros _; exact Hex | reflexivity].
    + split; [discriminate|]. intros Hall. destruct Hex as [f [Hf Hn]].
      destruct (Hall f Hf) as [content [Hc _]]. congruence.
    + reflexivity.
Qed.

Lemma compute_embeddings_failures_witness :
  fst (compute_embeddings toy_encode (empty_disk no_files) []) = Raise IndexError.
Proof.
  apply (proj2 (proj1 (proj2 (compute_embeddings_failures toy_encode
                                (empty_disk no_files) [])))).
  intros file_path [].
Defined.

(** X18. [compute_embeddings] builds from scratch: its outcome and the
    pair it persists depend on the story files only, not on an index or a
    store persisted before. *)
Theorem compute_embeddings_from_scratch (encode : str -> list Q) (dk dk' : Disk)
    (story_files : list str) :
  source_files dk' = source_files dk ->
  fst (compute_embeddings encode dk' story_files)
  = fst (compute_embeddings encode dk story_files) /\
  (fst (compute_embeddings encode dk story_files) = Return tt ->
   snd (compute_embeddings encode dk' story_files)
   = snd (compute_embeddings encode dk story_files)).
Proof.
  intros E. unfold compute_embeddings. rewrite (read_stories_ext dk dk' story_files E).
  destruct (read_stories dk story_files) as [stories|e]; cbn [fst snd].
  - rewrite !process_stories_eq. cbv zeta. cbn [texts metadatas init app].
    destruct (corpus_texts stories); cbn [fst snd].
    + split; [reflexivity | discriminate].
    + rewrite E. split; reflexivity.
  - split; [reflexivity | discriminate].
Qed.

Lemma compute_embeddings_from_scratch_witness :
  snd (compute_embeddings toy_encode misaligned_disk [ "hero.txt" : str ])
  = snd (compute_embeddings toy_encode (empty_disk (one_file "hero.txt" hero_text))
           [ "hero.txt" : str ]).
Proof.
  apply (proj2 (compute_embeddings_from_scratch toy_encode
                  (empty_disk (one_file "hero.txt" hero_text)) misaligned_disk
                  [ "hero.txt" : str ] eq_refl)).
  reflexivity.
Defined.

(** X19. Presence does not depend on capitalisation: after a build as in
    X15, two names with the same lowercase form are both absent or both
    found. *)
Theorem presence_ignores_case (encode : str -> list Q) (next_iter : list str -> str)
    (dk dk1 : Disk) (p1 : StoryProcessor) (stories : list Document) (n : nat)
    (name1 name2 : str) :
  fixed_dimension encode n ->
  process_stories encode dk init stories = (Return tt, p1, dk1) ->
  (forall story, In story stories -> story_chunks story <> [] -> readable dk (source story)) ->
  Py.lower name1 = Py.lower name2 ->
  (fst (get_character_info encode next_iter dk1 p1 name1) = Return None <->
   fst (get_character_info encode next_iter dk1 p1 name2) = Return None).
Proof.
  intros Hn H Hread E.
  destruct (built_lookup encode next_iter dk dk1 p1 stories n name1 Hn H Hread) as [_ [_ H1]].
  destruct (built_lookup encode next_iter dk dk1 p1 stories n name2 Hn H Hread) as [_ [_ H2]].
  rewrite H1, H2, E. reflexivity.
Qed.

Lemma presence_ignores_case_witness :
  fst (get_character_info toy_encode first_added hero_disk (snd (fst hero_built)) "ALICE")
  = Return None <->
  fst (get_character_info toy_encode first_added hero_disk (snd (fst hero_built)) "alice")
  = Return None.
Proof.
  apply (presence_ignores_case toy_encode first_added
           (empty_disk (one_file "hero.txt" hero_text)) hero_disk (snd (fst hero_built))
           [ {| page_content := hero_text; source := "hero.txt" |} ] 1 "ALICE" "alice"
           toy_encode_dimension eq_refl).
  - intros story [<- | []] _. now exists hero_text.
  - reflexivity.
Defined.
